(** * GES cell-cycling GUI: ordering validation and selection models

    A shallow embedding of the halfcycle-ordering reconciliation code of
    [cell-cycling/📁_file_manager.py] and of the selection code of
    [cell-cycling/pages/1_📉_cycles_plotter.py], with the properties the
    specification states about them.

    Conventions of the embedding:
    - a Python [dict] is an insertion-ordered association list ([Dict]):
      assignment to an existing key keeps its position, a new key is
      appended, iteration follows insertion order;
    - a Python [list] indexed or assigned by position is a Rocq list read
      with [!!] and written with [<[i:=x]>];
    - integers coming from [st.number_input(min_value=0, step=1)] are [nat];
    - a computation that can raise returns [option] ([None] = the exception
      propagates) or, where the state mutated so far matters, the state
      together with a completion flag. *)

From stdpp Require Import base option list sorting strings pretty.
From Stdlib Require Floats.

Open Scope string_scope.
Open Scope nat_scope.
Open Scope list_scope.

(** * Part I: the program *)

(** ** Python dictionaries *)

Module Dict.
Abbreviation t K V := (list (K * V)) (only parsing).

Section dict.
Context {K V : Type} `{EqDecision K}.
Implicit Types d : t K V.

Definition keys (d : t K V) : list K := d.*1.
Definition values (d : t K V) : list V := d.*2.
Definition items (d : t K V) : list (K * V) := d.

(** [k in d.keys()] *)
Definition contains (d : t K V) (k : K) : bool := bool_decide (k ∈ keys d).

(** [d[k]]; [None] is [KeyError]. *)
Fixpoint get (d : t K V) (k : K) : option V :=
  match d with
  | [] => None
  | (k', v) :: d' => if decide (k = k') then Some v else get d' k
  end.

(** [d[k] = v] *)
Fixpoint setitem (d : t K V) (k : K) (v : V) : t K V :=
  match d with
  | [] => [(k, v)]
  | (k', v') :: d' =>
      if decide (k = k') then (k, v) :: d' else (k', v') :: setitem d' k v
  end.
End dict.
End Dict.

(** ** The [core] package and the parser's records

    [core.experiment], [core.gui_core], [core.colors] and
    [core.post_process_handler] are imported by both pages; the records
    below carry the attributes the pages read and write. *)

Module Core.

Abbreviation float := PrimFloat.float (only parsing).

(** [echemsuite.cellcycling.cycles.HalfCycle]: the attributes the pages read. *)
Record HalfCycle : Type := {
  halfcycle_type : string;
  time : list float;
  voltage : list float;
  current : list float;
  Q : list float;
  power : list float;
  energy : list float;
}.

Record Cycle : Type := {
  number : nat;
  charge : option HalfCycle;
  discharge : option HalfCycle;
  _hidden : bool;
}.

Section experiment.
Context {ColorRGB : Type}.

(** [Experiment]; [bytestreams] and [halfcycles] are the key lists of the
    manager's two dictionaries. *)
Record Experiment : Type := {
  name : string;
  instrument : string;
  bytestreams : list string;
  halfcycles : list string;
  ordering : list (list string);
  _cycles : list Cycle;
  _skipped_files : nat;
  volume : option float;
  area : option float;
  color : ColorRGB;
}.

(** Modelled from the spec: [ProgramStatus] of [core.gui_core] is not in
    the sources. The registry is the ordered sequence of experiments with
    unique names; [get_index_of] is the name to index lookup, [None] being
    the [ExperimentNotFound] failure. *)
Definition get_index_of (status : list Experiment) (n : string) : option nat :=
  fst <$> list_find (λ e, name e = n) status.

(** Modelled from the spec: [ProgramStatus.remove_experiment], removal of
    the experiment at a position of the registry. *)
Definition remove_experiment (status : list Experiment) (index : nat) :
    list Experiment :=
  delete index status.

(** Modelled from the spec: [ProgramStatus.append_experiment]. *)
Definition append_experiment (status : list Experiment) (e : Experiment) :
    list Experiment :=
  status ++ [e].
End experiment.
Arguments Experiment : clear implicits.

(** [SingleCycleSeries(label, experiment_name, cycle_id, hex_color,
    color_from_base)] of [core.gui_core]. *)
Record SingleCycleSeries : Type := {
  label : string;
  experiment_name : string;
  cycle_id : nat;
  hex_color : string;
  color_from_base : bool;
}.

#[global] Instance series_eq_dec : EqDecision SingleCycleSeries.
Proof. solve_decision. Defined.

(** Modelled from the spec: [ExperimentSelector] of [core.gui_core] is not
    in the sources. The view maps an experiment name to the ordered
    sequence of its visible cycle indices; [set] replaces the sequence of
    a name (adding the name when absent), [remove] evicts the entry. *)
Definition ExperimentSelector_set (view : Dict.t string (list nat))
    (n : string) (cycles : list nat) : Dict.t string (list nat) :=
  Dict.setitem view n cycles.

Definition ExperimentSelector_remove (view : Dict.t string (list nat))
    (n : string) : Dict.t string (list nat) :=
  filter (λ kv, kv.1 ≠ n) view.

(** The entries of [st.session_state] the two pages share. *)
Record Session {ColorRGB : Type} : Type := {
  ProgramStatus : list (Experiment ColorRGB);
  SelectedExperimentName : option string;
  Page2_CyclePlotSelection : Dict.t string (list nat);
  Page2_ComparisonPlot : list SingleCycleSeries;
}.
Arguments Session : clear implicits.

(** Modelled from the spec: [remove_experiment_entries] of
    [core.post_process_handler] is not in the sources. Deleting an
    experiment evicts its entry of the selection view and removes every
    series of that experiment from the comparison buffer, the other
    series staying as they are. *)
Definition remove_experiment_entries {ColorRGB} (s : Session ColorRGB)
    (n : string) : Session ColorRGB :=
  {| ProgramStatus := ProgramStatus s;
     SelectedExperimentName := SelectedExperimentName s;
     Page2_CyclePlotSelection :=
       ExperimentSelector_remove (Page2_CyclePlotSelection s) n;
     Page2_ComparisonPlot :=
       filter (λ series, experiment_name series ≠ n) (Page2_ComparisonPlot s) |}.

End Core.

(** ** Ordering validation (file manager, "Halfcycle ordering manipulation") *)

Module FileManager.

(** What one pass over the ordering table ends with: one of the three
    warnings, or the rebuilt ordering. *)
Inductive outcome : Type :=
  | MissingCycleIndices (missing : list string)
  | SlotRepetition
  | HalfcycleTypeMismatch
  | NewOrdering (new_ordering : list (list string)).

#[global] Instance outcome_eq_dec : EqDecision outcome.
Proof. solve_decision. Defined.

(** [ordering_buffer]: filename -> (Halfcycle ID, partial files order), as
    the number inputs of the table leave it. *)
Abbreviation ordering_buffer := (Dict.t string (nat * nat)) (only parsing).

(** [max_cycle = 0], then [max_cycle = max(max_cycle, new_cycle)] per row. *)
Definition max_cycle (ob : ordering_buffer) : nat :=
  foldl (λ m e, m `max` e.2.1) 0 ob.

(** One iteration of the loop filling [cycle_based_buffer]; the state is
    the [repetition] flag and the list of per-cycle dictionaries. [None] is
    the [IndexError] of [cycle_based_buffer[cycle]]. *)
Definition group_step (st : option (bool * list (Dict.t nat string)))
    (item : string * (nat * nat)) : option (bool * list (Dict.t nat string)) :=
  '(repetition, cbb) ← st;
  let '(filename, (cycle, halfcycle)) := item in
  d ← cbb !! cycle;
  Some (repetition || Dict.contains d halfcycle,
        <[cycle := Dict.setitem d halfcycle filename]> cbb).

Definition group_files (ob : ordering_buffer) :
    option (bool * list (Dict.t nat string)) :=
  foldl group_step (Some (false, replicate (max_cycle ob + 1) [])) (Dict.items ob).

(** [missing]: the decimal strings of the indices whose dictionary is
    empty, in ascending order. *)
Definition find_missing (cbb : list (Dict.t nat string)) : list string :=
  omap (λ p : nat * Dict.t nat string,
          if decide (p.2 = []) then Some (pretty p.1) else None)
       (imap pair cbb).

Section validate.
(** [experiment.manager.halfcycles[filename].halfcycle_type]; the manager
    belongs to the external parser. The table rendered just above reads
    [halfcycles[filename]] for every row, so the lookup is total here. *)
Variable halfcycle_type : string → string.

Definition is_charge (filename : string) : bool :=
  bool_decide (halfcycle_type filename = "charge").

(** [any([value != is_charge_list[0] for value in is_charge_list])] *)
Definition group_mismatch (buffer : Dict.t nat string) : bool :=
  let is_charge_list := is_charge <$> Dict.values buffer in
  match is_charge_list with
  | [] => false
  | first :: _ => existsb (λ value, negb (Bool.eqb value first)) is_charge_list
  end.

Definition type_mismatch (cbb : list (Dict.t nat string)) : bool :=
  existsb group_mismatch cbb.

(** [max(buffer.keys())]; [None] is the [ValueError] on an empty dict. *)
Definition max_key (buffer : Dict.t nat string) : option nat :=
  match Dict.keys buffer with
  | [] => None
  | k :: ks => Some (foldl Nat.max k ks)
  end.

(** The inner loop of the last branch: the filenames of one group by
    ascending partial-file index. *)
Definition order_group (buffer : Dict.t nat string) : option (list string) :=
  m ← max_key buffer;
  Some (omap (λ i, if Dict.contains buffer i then Dict.get buffer i else None)
             (seq 0 (m + 1))).

(** [new_ordering] has one list per entry of [cycle_based_buffer], so
    [new_ordering[cycle]] is always in range. *)
Definition build_new_ordering (cbb : list (Dict.t nat string)) :
    option (list (list string)) :=
  mapM order_group cbb.

(** The whole chain: grouping, the three checks, then the [if]/[elif]
    cascade in the order the source has it. *)
Definition validate (ob : ordering_buffer) : option outcome :=
  '((repetition, cbb) : bool * list (Dict.t nat string)) ← group_files ob;
  let missing := find_missing cbb in
  let partial_halfcycle_type_mismatch := type_mismatch cbb in
  if decide (missing ≠ []) then Some (MissingCycleIndices missing)
  else if repetition then Some SlotRepetition
  else if partial_halfcycle_type_mismatch then Some HalfcycleTypeMismatch
  else NewOrdering <$> build_new_ordering cbb.
End validate.

(** *** The handlers that change an experiment *)

Section handlers.
Context {ColorRGB : Type}.
Abbreviation Experiment := (Core.Experiment ColorRGB).
Abbreviation Session := (Core.Session ColorRGB).

Variable halfcycle_type : string → string.

(** The external parser's merge of the files of one type of a group into
    one half-cycle, and the external plausibility check behind the hidden
    flag. *)
Variable join_halfcycles : list string → Core.HalfCycle.
Variable is_hidden : option Core.HalfCycle → option Core.HalfCycle → bool.

Definition resolve (files : list string) : option Core.HalfCycle :=
  match files with
  | [] => None
  | _ => Some (join_halfcycles files)
  end.

(** Modelled from the spec: the Cycle Assembler behind the [ordering]
    setter of [core.experiment] is not in the sources. Each outer group of
    the canonical ordering gives one Cycle: its charge files resolve to the
    charge slot, its discharge files to the discharge slot, and the hidden
    flag comes from the external check. *)
Definition assemble_cycle (index : nat) (group : list string) : Core.Cycle :=
  let charge := resolve (filter (λ f, halfcycle_type f = "charge") group) in
  let discharge := resolve (filter (λ f, halfcycle_type f = "discharge") group) in
  {| Core.number := index; Core.charge := charge; Core.discharge := discharge;
     Core._hidden := is_hidden charge discharge |}.

Definition assemble (ordering : list (list string)) : list Core.Cycle :=
  imap assemble_cycle ordering.

(** Modelled from the spec: [experiment.ordering = new_ordering] replaces
    the ordering table and re-runs the assembly. *)
Definition set_ordering (experiment : Experiment)
    (new_ordering : list (list string)) : Experiment :=
  {| Core.name := Core.name experiment;
     Core.instrument := Core.instrument experiment;
     Core.bytestreams := Core.bytestreams experiment;
     Core.halfcycles := Core.halfcycles experiment;
     Core.ordering := new_ordering;
     Core._cycles := assemble new_ordering;
     Core._skipped_files := Core._skipped_files experiment;
     Core.volume := Core.volume experiment;
     Core.area := Core.area experiment;
     Core.color := Core.color experiment |}.

(** The end of the "Halfcycle ordering manipulation" expander: a warning
    leaves the experiment alone, and so does an ordering equal to the
    current one; the second component tells whether a rerun was asked. *)
Definition ordering_manipulation (experiment : Experiment)
    (ob : ordering_buffer) : option (Experiment * bool) :=
  out ← validate halfcycle_type ob;
  match out with
  | NewOrdering new_ordering =>
      if decide (new_ordering ≠ Core.ordering experiment)
      then Some (set_ordering experiment new_ordering, true)
      else Some (experiment, false)
  | _ => Some (experiment, false)
  end.

(** [filename in search] on two strings. *)
Definition str_in (filename search : string) : bool :=
  bool_decide (is_Some (String.index 0 filename search)).

(** The list of skipped files of an uploaded batch; [None] is the
    [RuntimeError] of an unknown instrument. *)
Definition skipped_files_of (new_experiment : Experiment) : option (list string) :=
  let bytestreams := Core.bytestreams new_experiment in
  let halfcycles := Core.halfcycles new_experiment in
  if decide (Core.instrument new_experiment = "GAMRY") then
    if decide (length bytestreams ≠ length halfcycles)
    then Some (filter (λ filename, filename ∉ halfcycles) bytestreams)
    else Some []
  else if decide (Core.instrument new_experiment = "BIOLOGIC") then
    Some (filter (λ filename, existsb (str_in filename) halfcycles = false)
                 bytestreams)
  else None.

Definition set_name (experiment : Experiment) (n : string) : Experiment :=
  {| Core.name := n;
     Core.instrument := Core.instrument experiment;
     Core.bytestreams := Core.bytestreams experiment;
     Core.halfcycles := Core.halfcycles experiment;
     Core.ordering := Core.ordering experiment;
     Core._cycles := Core._cycles experiment;
     Core._skipped_files := Core._skipped_files experiment;
     Core.volume := Core.volume experiment;
     Core.area := Core.area experiment;
     Core.color := Core.color experiment |}.

(** [experiment._skipped_files += n] *)
Definition add_skipped_files (n : nat) (experiment : Experiment) : Experiment :=
  {| Core.name := Core.name experiment;
     Core.instrument := Core.instrument experiment;
     Core.bytestreams := Core.bytestreams experiment;
     Core.halfcycles := Core.halfcycles experiment;
     Core.ordering := Core.ordering experiment;
     Core._cycles := Core._cycles experiment;
     Core._skipped_files := Core._skipped_files experiment + n;
     Core.volume := Core.volume experiment;
     Core.area := Core.area experiment;
     Core.color := Core.color experiment |}.

(** [experiment += new_experiment], the in-place merge of
    [core.experiment]. *)
Variable iadd : Experiment → Experiment → Experiment.

(** What the upload form reports after a submission: whether the
    instrument error was shown, and the content of [UploadConfirmation]
    (the list of skipped files is empty where the source leaves [None]). *)
Record upload_report : Type := {
  instrument_error : bool;
  created_experiment : string;
  skipped_files : list string;
}.

(** The submit handler under "Add to existing experiment", from the
    renaming of the fresh experiment to the rerun. The registry is returned
    as the handler leaves it; a report of [None] is an exception raised on
    the way ([get_index_of] failing, or the [RuntimeError] of the skipped
    files section). *)
Definition add_to_existing (status : list Experiment) (selected : string)
    (uploaded : Experiment) : list Experiment * option upload_report :=
  let new_experiment :=
    if decide (selected ≠ "") then set_name uploaded selected else uploaded in
  let n := if decide (selected ≠ "") then selected else Core.name uploaded in
  match Core.get_index_of status n with
  | None => (status, None)
  | Some index =>
      match status !! index with
      | None => (status, None)
      | Some experiment =>
          let mismatch :=
            bool_decide (Core.instrument experiment ≠ Core.instrument new_experiment) in
          let status1 :=
            if mismatch then status
            else <[index := iadd experiment new_experiment]> status in
          match skipped_files_of new_experiment with
          | None => (status1, None)
          | Some skipped =>
              let report :=
                {| instrument_error := mismatch;
                   created_experiment := Core.name new_experiment;
                   skipped_files := skipped |} in
              if decide (skipped ≠ []) then
                match Core.get_index_of status1 n with
                | None => (status1, None)
                | Some index' =>
                    (alter (add_skipped_files (length skipped)) index' status1,
                     Some report)
                end
              else (status1, Some report)
          end
      end
  end.

(** The "Delete Experiment" button of the editor tab; [None] is the lookup
    failure of [get_index_of]. *)
Definition delete_experiment (s : Session) (experiment : Experiment) :
    option Session :=
  let s1 := Core.remove_experiment_entries s (Core.name experiment) in
  index ← Core.get_index_of (Core.ProgramStatus s1) (Core.name experiment);
  Some {| Core.ProgramStatus :=
            Core.remove_experiment (Core.ProgramStatus s1) index;
          Core.SelectedExperimentName :=
            if decide (Core.SelectedExperimentName s1 = Some (Core.name experiment))
            then None else Core.SelectedExperimentName s1;
          Core.Page2_CyclePlotSelection := Core.Page2_CyclePlotSelection s1;
          Core.Page2_ComparisonPlot := Core.Page2_ComparisonPlot s1 |}.
End handlers.

(** *** The table of number inputs *)

(** [int(st.number_input(..., value=value, key=key))]: what the session
    holds for the key of the widget, or the default value of the widget
    when it holds nothing. *)
Definition number_input (state : string → option nat) (key : string)
    (value : nat) : nat :=
  default value (state key).

(** The rows of the table, in the order of the two [enumerate] loops:
    (cycle, halfcycle, filename). *)
Definition table_rows (current_ordering : list (list string)) :
    list (nat * nat * string) :=
  mjoin (imap (λ cycle cycle_list,
                 imap (λ halfcycle filename, (cycle, halfcycle, filename))
                      cycle_list)
              current_ordering).

(** The body of the inner loop, on [max_cycle] and [ordering_buffer]. *)
Definition table_step (state : string → option nat)
    (st : nat * Dict.t string (nat * nat)) (row : nat * nat * string) :
    nat * Dict.t string (nat * nat) :=
  let '(cycle, halfcycle, filename) := row in
  let ordering_buffer := Dict.setitem st.2 filename (cycle, halfcycle) in
  let new_cycle := number_input state ("Cycle_" ++ filename)%string cycle in
  let max_cycle := st.1 `max` new_cycle in
  let new_halfcycle :=
    number_input state ("Halfcycle_" ++ filename)%string halfcycle in
  if decide (cycle ≠ new_cycle ∨ halfcycle ≠ new_halfcycle)
  then (max_cycle, Dict.setitem ordering_buffer filename (new_cycle, new_halfcycle))
  else (max_cycle, ordering_buffer).

(** [max_cycle] and [ordering_buffer] as the table leaves them. *)
Definition ordering_table (state : string → option nat)
    (current_ordering : list (list string)) : nat * Dict.t string (nat * nat) :=
  foldl (table_step state) (0, []) (table_rows current_ordering).

(** *** The selection of the files to remove *)

(** The loop over the loaded files: a checked file is appended; for an
    unchecked one found in the list the source runs
    [del selection_list[filename]], a [TypeError] on a list ([None]). *)
Definition selection_step (checked : string → bool)
    (selection_list : option (list string)) (filename : string) :
    option (list string) :=
  selection_list ← selection_list;
  if checked filename then Some (selection_list ++ [filename])
  else if bool_decide (filename ∈ selection_list) then None
  else Some selection_list.

Definition selected_files (checked : string → bool) (bytestreams : list string) :
    option (list string) :=
  foldl (selection_step checked) (Some []) bytestreams.

(** *** The inspector tab *)

Section inspector.
Context {ColorRGB : Type}.

(** The status column of the loaded file report: [true] is PARSED,
    [false] is SKIPPED. *)
Definition file_parsed (experiment : Core.Experiment ColorRGB)
    (filename : string) : bool :=
  if bool_decide (Core.instrument experiment = "GAMRY")
     && bool_decide (filename ∈ Core.halfcycles experiment)
  then true
  else if bool_decide (Core.instrument experiment = "BIOLOGIC")
          && existsb (str_in filename) (Core.halfcycles experiment)
  then true
  else false.
End inspector.

(** *** The dump of the session after an unexpected exception

    Both pages end with this loop. The directory is the list of the names
    of its regular files; [fuel] bounds the iterations of [while True]. *)

Definition dump_file (dump_index : nat) : string :=
  ("./GES_echem_gui_dump_" ++ pretty dump_index ++ ".pickle")%string.

Fixpoint find_dump_index (files : list string) (fuel dump_index : nat) :
    option nat :=
  match fuel with
  | 0 => None
  | S fuel' =>
      if bool_decide (dump_file dump_index ∈ files)
      then find_dump_index files fuel' (S dump_index)
      else Some dump_index
  end.

(** The directory after the dump was written. *)
Definition crash_dump (files : list string) (fuel : nat) : option (list string) :=
  dump_index ← find_dump_index files fuel 0;
  Some (files ++ [dump_file dump_index]).

(** *** Vocabulary of the specification *)

(** The Halfcycle IDs the table selects, row by row. *)
Definition cycles (ob : ordering_buffer) : list nat := (λ e, e.2.1) <$> ob.

(** The state of the grouping loop after the rows [l], over [n] groups. *)
Definition grouped (n : nat) (l : ordering_buffer)
    (st : bool * list (Dict.t nat string)) : Prop :=
  length st.2 = n ∧
  (st.1 = true ↔ ¬ NoDup l.*2) ∧
  ∀ c d, st.2 !! c = Some d →
    (∀ s, s ∈ Dict.keys d ↔ (c, s) ∈ l.*2) ∧
    (∀ s f, (s, f) ∈ d → (f, (c, s)) ∈ l).

(** Two rows of the table claim the same slot of the same group. *)
Definition slot_repetition (ob : ordering_buffer) : Prop :=
  ∃ i j f1 f2 c s,
    i ≠ j ∧ ob !! i = Some (f1, (c, s)) ∧ ob !! j = Some (f2, (c, s)).

(** The group [k] is within the built range but holds no file. *)
Definition missing_index (ob : ordering_buffer) (k : nat) : Prop :=
  k ≤ max_cycle ob ∧ k ∉ cycles ob.


(** The indices of the built range that no row selects, ascending. *)
Definition missing_indices (ob : ordering_buffer) : list nat :=
  filter (λ k, k ∉ cycles ob) (seq 0 (max_cycle ob + 1)).

(** The file [f] stands at slot [s] of group [c] of an ordering. *)
Definition placed (ordering : list (list string)) (c s : nat) (f : string) : Prop :=
  ∃ group, ordering !! c = Some group ∧ group !! s = Some f.

(** No file stands at two places of the ordering. *)
Definition files_once (ordering : list (list string)) : Prop :=
  ∀ c1 s1 c2 s2 f,
    placed ordering c1 s1 f → placed ordering c2 s2 f → c1 = c2 ∧ s1 = s2.

(** Two files of one group of the table are not both charge files or both
    other files. *)
Definition type_clash (halfcycle_type : string → string)
    (ob : ordering_buffer) : Prop :=
  ∃ f1 f2 c s1 s2,
    (f1, (c, s1)) ∈ ob ∧ (f2, (c, s2)) ∈ ob ∧
    is_charge halfcycle_type f1 ≠ is_charge halfcycle_type f2.

(** The session holds the default of every number input of the table. *)
Definition untouched (state : string → option nat)
    (current_ordering : list (list string)) : Prop :=
  ∀ c s f, placed current_ordering c s f →
    number_input state ("Cycle_" ++ f)%string c = c ∧
    number_input state ("Halfcycle_" ++ f)%string s = s.

(** *** Sample inputs *)

(** A table with two files in slot 0 of group 0 and nothing in group 1. *)
Definition repeated_and_missing : ordering_buffer :=
  [("a.DTA", (0, 0)); ("b.DTA", (0, 0)); ("c.DTA", (2, 0))].

(** Two groups, the first one split over two partial files given out of
    order. *)
Definition two_groups : ordering_buffer :=
  [("b.DTA", (0, 1)); ("a.DTA", (0, 0)); ("c.DTA", (1, 0))].

(** An experiment made of one GAMRY file, and an uploaded BIOLOGIC batch
    whose only file could not be parsed. *)
Definition gamry_experiment : Core.Experiment unit :=
  {| Core.name := "exp"; Core.instrument := "GAMRY";
     Core.bytestreams := ["a.DTA"]; Core.halfcycles := ["a.DTA"];
     Core.ordering := [["a.DTA"]]; Core._cycles := [];
     Core._skipped_files := 0; Core.volume := None; Core.area := None;
     Core.color := tt |}.

Definition biologic_upload : Core.Experiment unit :=
  {| Core.name := "experiment_1"; Core.instrument := "BIOLOGIC";
     Core.bytestreams := ["b.mpt"]; Core.halfcycles := [];
     Core.ordering := []; Core._cycles := [];
     Core._skipped_files := 0; Core.volume := None; Core.area := None;
     Core.color := tt |}.

End FileManager.

(** ** The cycles plotter page *)

Module CyclesPlotter.
Import Core.

Definition HALFCYCLE_SERIES : list string :=
  ["time"; "voltage"; "current"; "charge"; "power"; "energy"].

(** *** The metric-series accessor

    A [pd.Series] of [float64] is the list of its values; arithmetic with a
    Python number acts on every value, in IEEE 754 binary64. *)

Module Series.
Import PrimFloat.

Definition thousand : float := 1000%float.

(** [series / x] *)
Definition div (series : list float) (x : float) : list float :=
  (λ v, PrimFloat.div v x) <$> series.

(** [x * series] *)
Definition rmul (x : float) (series : list float) : list float :=
  (λ v, PrimFloat.mul x v) <$> series.

(** [1000 * volume] on a Python [float] *)
Definition times_thousand (x : float) : float := PrimFloat.mul thousand x.
End Series.

(** [None] is the [ValueError] of a title outside [HALFCYCLE_SERIES]. *)
Definition get_halfcycle_series (halfcycle : HalfCycle) (title : string)
    (volume area : option float) : option (string * list float) :=
  if decide (title = "time") then
    Some ("Time (s)", time halfcycle)
  else if decide (title = "voltage") then
    Some ("Voltage (V)", voltage halfcycle)
  else if decide (title = "current") then
    let current := current halfcycle in
    match area with
    | None => Some ("Current (A)", current)
    | Some area => Some ("Current density (A/cm<sup>2</sup>)", Series.div current area)
    end
  else if decide (title = "charge") then
    let charge := Q halfcycle in
    match volume with
    | None => Some ("Capacity (mAh)", charge)
    | Some volume =>
        Some ("Volumetric capacity (Ah/L)",
              Series.div charge (Series.times_thousand volume))
    end
  else if decide (title = "power") then
    let power := power halfcycle in
    match area with
    | None => Some ("Power (W)", power)
    | Some area =>
        Some ("Power density (mW/cm<sup>2</sup>)",
              Series.div (Series.rmul Series.thousand power) area)
    end
  else if decide (title = "energy") then
    let energy := energy halfcycle in
    match volume with
    | None => Some ("Energy (mWh)", energy)
    | Some volume =>
        Some ("Energy density (Wh/L)",
              Series.div energy (Series.times_thousand volume))
    end
  else None.

(** *** Handlers over the comparison buffer

    [st.session_state["Page2_ComparisonPlot"]] is one list, mutated in
    place; a handler is a function of that list to the list it leaves and
    what it returned or raised. *)

Inductive exception : Type :=
  | ValueError
  | ZeroDivisionError.

Inductive result (A : Type) : Type :=
  | Return (a : A)
  | Raise (e : exception).
Arguments Return {A} a.
Arguments Raise {A} e.

Definition M (A : Type) : Type :=
  list SingleCycleSeries → list SingleCycleSeries * result A.

Definition ret {A} (a : A) : M A := λ selected_series, (selected_series, Return a).

Definition bind {A B} (m : M A) (k : A → M B) : M B :=
  λ selected_series,
    match m selected_series with
    | (selected_series', Return a) => k a selected_series'
    | (selected_series', Raise e) => (selected_series', Raise e)
    end.

Definition lift {A} (r : result A) : M A := λ selected_series, (selected_series, r).

Definition read : M (list SingleCycleSeries) :=
  λ selected_series, (selected_series, Return selected_series).

(** [selected_series.append(series)] *)
Definition append (series : SingleCycleSeries) : M unit :=
  λ selected_series, ((selected_series ++ [series]), Return tt).

Notation "'let!' x ':=' m 'in' k" := (bind m (λ x, k))
  (at level 10, x pattern, m at level 100, k at level 200).
Notation "m1 ';;' m2" := (bind m1 (λ _, m2))
  (at level 100, m2 at level 200, right associativity).

(** [for x in l: body(x)], stopping at the first exception. *)
Fixpoint for_each {A} (l : list A) (body : A → M unit) : M unit :=
  match l with
  | [] => ret tt
  | x :: l' => body x ;; for_each l' body
  end.

(** [l.index(n)] *)
Definition list_index (l : list nat) (n : nat) : result nat :=
  match list_find (λ x, x = n) l with
  | Some (i, _) => Return i
  | None => Raise ValueError
  end.

(** [np.arange(start, stop, step=step)] on non-negative integers: the
    values [start + i * step] for [i] below the ceiling of
    [(stop - start) / step], none when [stop <= start]. *)
Definition np_arange (start stop step : nat) : result (list nat) :=
  if decide (step = 0) then Raise ZeroDivisionError
  else Return ((λ i, start + i * step) <$> seq 0 ((stop - start + step - 1) / step)).

(** The copy, the [clear()] and the loop that appends back. *)
Definition remove_experiment_from_series_buffer (name : string) : M unit :=
  λ selected_series,
    let buffer := selected_series in
    (foldl (λ kept series,
              if decide (experiment_name series ≠ name) then kept ++ [series]
              else kept)
           [] buffer,
     Return tt).

Section comparison.
(** [get_plotly_color] of [core.colors]: the palette colour of a position. *)
Variable get_plotly_color : nat → string.

Definition series_label (label_prefix : string) (n : nat) : string :=
  (label_prefix ++ " [" ++ pretty n ++ "]")%string.

(** The body of [for n in cycles_in_selection]. *)
Definition stride_body (name label_prefix : string) (cycle_numbers : list nat)
    (use_base_color : bool) (n : nat) : M unit :=
  let! _ := lift (list_index cycle_numbers n) in
  let! selected_series := read in
  let duplicate :=
    existsb (λ series,
               bool_decide (experiment_name series = name ∧ cycle_id series = n))
            selected_series in
  if duplicate then ret tt
  else
    append {| label := series_label label_prefix n;
              experiment_name := name;
              cycle_id := n;
              hex_color := get_plotly_color (length selected_series);
              color_from_base := use_base_color |}.

(** The "Apply" button of the stride based selector (shown when the
    experiment has more than one cycle). *)
Definition comparison_stride_apply (name label_prefix : string)
    (cycle_numbers : list nat) (use_base_color : bool)
    (start stop stride : nat) : M unit :=
  remove_experiment_from_series_buffer name ;;
  let! cycles_in_selection := lift (np_arange start (stop + 1) stride) in
  for_each cycles_in_selection
    (stride_body name label_prefix cycle_numbers use_base_color).

(** [exclude] and the options offered by the manual selector. *)
Definition exclude (selected_series : list SingleCycleSeries) (name : string) :
    list nat :=
  cycle_id <$> filter (λ entry, experiment_name entry = name) selected_series.

Definition manual_options (selected_series : list SingleCycleSeries)
    (name : string) (cycle_numbers : list nat) : list nat :=
  filter (λ n, n ∉ exclude selected_series name) cycle_numbers.

(** The body of [for label, n in selected_cycles.items()]; [n] is [None]
    when the select box had nothing to offer. *)
Definition manual_body (name : string) (cycle_numbers : list nat)
    (use_base_color : bool) (item : string * option nat) : M unit :=
  match item.2 with
  | None => lift (Raise ValueError)
  | Some n =>
      let! _ := lift (list_index cycle_numbers n) in
      let! selected_series := read in
      append {| label := item.1;
                experiment_name := name;
                cycle_id := n;
                hex_color := get_plotly_color (length selected_series);
                color_from_base := use_base_color |}
  end.

(** The "Add" button with the multiple selection: [picked] is what the
    multiselect returned, which also replaces [cycle_numbers]. *)
Definition manual_add_multiple (name label_prefix : string)
    (use_base_color : bool) (picked : list nat) : M unit :=
  let selected_cycles : Dict.t string (option nat) :=
    foldl (λ d n, Dict.setitem d (series_label label_prefix n) (Some n)) [] picked in
  for_each (Dict.items selected_cycles) (manual_body name picked use_base_color).

(** The "Add" button with the single selection. *)
Definition manual_add_single (name cycle_label : string)
    (cycle_numbers : list nat) (use_base_color : bool)
    (cycle_number : option nat) : M unit :=
  let selected_cycles : Dict.t string (option nat) :=
    Dict.setitem [] cycle_label cycle_number in
  for_each (Dict.items selected_cycles) (manual_body name cycle_numbers use_base_color).

(** The series editor: [del selected_series[series_position]], and the
    "Apply" button on the series at [series_position]. *)
Definition series_remove (series_position : nat) : M unit :=
  λ selected_series, (delete series_position selected_series, Return tt).

Definition edit_series (new_label new_color : string) (override_color : bool)
    (current_series : SingleCycleSeries) : SingleCycleSeries :=
  {| label := new_label;
     experiment_name := experiment_name current_series;
     cycle_id := cycle_id current_series;
     hex_color := new_color;
     color_from_base :=
       if override_color then false else color_from_base current_series |}.

Definition series_apply (series_position : nat) (new_label new_color : string)
    (override_color : bool) : M unit :=
  λ selected_series,
    (alter (edit_series new_label new_color override_color) series_position
           selected_series,
     Return tt).

(** The buffers these handlers produce from the empty buffer of a new
    session. The select boxes only return what they offer. *)
Inductive reachable : list SingleCycleSeries → Prop :=
  | reachable_init : reachable []
  | reachable_remove b name :
      reachable b →
      reachable (remove_experiment_from_series_buffer name b).1
  | reachable_stride b name label_prefix cycle_numbers use_base_color start stop stride :
      reachable b →
      reachable (comparison_stride_apply name label_prefix cycle_numbers
                   use_base_color start stop stride b).1
  | reachable_manual_multiple b name label_prefix cycle_numbers use_base_color picked :
      reachable b →
      picked ⊆ manual_options b name cycle_numbers →
      reachable (manual_add_multiple name label_prefix use_base_color picked b).1
  | reachable_manual_single b name cycle_label cycle_numbers use_base_color cycle_number :
      reachable b →
      (∀ n, cycle_number = Some n → n ∈ manual_options b name cycle_numbers) →
      reachable (manual_add_single name cycle_label cycle_numbers use_base_color
                   cycle_number b).1
  | reachable_series_remove b series_position :
      reachable b → reachable (series_remove series_position b).1
  | reachable_series_apply b series_position new_label new_color override_color :
      reachable b →
      reachable (series_apply series_position new_label new_color override_color b).1.
End comparison.

(** *** The stacked plot: constant-interval selection *)

(** The "Apply" button of the constant-interval selector (shown when the
    experiment has more than one cycle); [None] is the exception of
    [np.arange]. *)
Definition stacked_stride_apply (view : Dict.t string (list nat))
    (current_view : string) (start stop stride : nat) :
    option (Dict.t string (list nat)) :=
  match np_arange start (stop + 1) stride with
  | Return cycles_in_view => Some (ExperimentSelector_set view current_view cycles_in_view)
  | Raise _ => None
  end.

(** *** Colour of a trace of the comparison plot *)

Section rendering.
Context {ColorRGB RGB : Type}.
(** [ColorRGB.get_shade] and [RGB_to_HEX] of [core.colors]. *)
Variable get_shade : ColorRGB → nat → nat → bool → RGB.
Variable RGB_to_HEX : RGB → string.

(** The dictionary from an experiment name to the cycle ids of its
    buffered series, in buffer order. *)
Definition experiment_based_selection (selected_series : list SingleCycleSeries) :
    Dict.t string (list nat) :=
  foldl (λ selection entry,
           let exp_name := experiment_name entry in
           match Dict.get selection exp_name with
           | None => Dict.setitem selection exp_name [cycle_id entry]
           | Some ids => Dict.setitem selection exp_name (ids ++ [cycle_id entry])
           end)
        [] selected_series.

(** The colour given to the trace of [entry]; [None] is an exception of
    one of the lookups. *)
Definition trace_color (status : list (Experiment ColorRGB)) (reverse : bool)
    (selected_series : list SingleCycleSeries) (entry : SingleCycleSeries) :
    option string :=
  let name := experiment_name entry in
  let cycle_id := cycle_id entry in
  exp_idx ← get_index_of status name;
  experiment ← status !! exp_idx;
  _ ← _cycles experiment !! cycle_id;
  ids ← Dict.get (experiment_based_selection selected_series) name;
  trace_id ← match list_index ids cycle_id with
             | Return i => Some i
             | Raise _ => None
             end;
  let num_traces := length ids in
  let shade := RGB_to_HEX (get_shade (color experiment) trace_id num_traces reverse) in
  Some (if bool_decide (color_from_base entry = false) then hex_color entry else shade).
End rendering.

(** *** The series editor of the comparison plot *)

(** [l.index(x)] on a list of strings. *)
Definition str_index (l : list string) (x : string) : result nat :=
  match list_find (λ y, y = x) l with
  | Some (i, _) => Return i
  | None => Raise ValueError
  end.

(** [available_labels.index(series_label)] for the label picked in the
    select box. *)
Definition series_position (selected_series : list SingleCycleSeries)
    (selected_label : string) : result nat :=
  let available_labels := label <$> selected_series in
  str_index available_labels selected_label.

(** What the three widgets of the editor hold before the user touches
    them: the label of the series, its colour, and the override box
    checked exactly when the series does not use the base colour. *)
Definition editor_defaults (current_series : SingleCycleSeries) :
    string * string * bool :=
  (label current_series, hex_color current_series,
   if color_from_base current_series then false else true).

(** *** The axis selectors *)

(** [HALFCYCLE_SERIES.index(x_axis) if x_axis else 0] *)
Definition x_axis_index (x_axis : option string) : result nat :=
  match x_axis with
  | Some x => if decide (x ≠ "") then str_index HALFCYCLE_SERIES x else Return 0
  | None => Return 0
  end.

Definition sub_HALFCYCLE_SERIES (x_axis : string) : list string :=
  filter (λ x, x ≠ x_axis) HALFCYCLE_SERIES.

(** [sub_HALFCYCLE_SERIES.index(y_axis) if y_axis and y_axis in
    sub_HALFCYCLE_SERIES else 0] *)
Definition y_axis_index (x_axis : string) (y_axis : option string) : result nat :=
  match y_axis with
  | Some y =>
      if bool_decide (y ≠ "") && bool_decide (y ∈ sub_HALFCYCLE_SERIES x_axis)
      then str_index (sub_HALFCYCLE_SERIES x_axis) y
      else Return 0
  | None => Return 0
  end.

(** *** Vocabulary of the specification *)

(** The (experiment name, cycle index) pair of a series. *)
Definition pair_of (series : SingleCycleSeries) : string * nat :=
  (experiment_name series, cycle_id series).

(** No two series of the buffer have the same pair. *)
Definition pairs_unique (selected_series : list SingleCycleSeries) : Prop :=
  NoDup (pair_of <$> selected_series).

(** The series of one experiment, in buffer order. *)
Definition series_of (name : string) (selected_series : list SingleCycleSeries) :
    list SingleCycleSeries :=
  filter (λ series, experiment_name series = name) selected_series.

(** The series of the other experiments, in buffer order. *)
Definition series_not_of (name : string) (selected_series : list SingleCycleSeries) :
    list SingleCycleSeries :=
  filter (λ series, experiment_name series ≠ name) selected_series.

(** The series that the stride based selector makes for the index [n]
    when the buffer holds [position] series. *)
Definition stride_series (get_plotly_color : nat → string)
    (name label_prefix : string) (use_base_color : bool) (position n : nat) :
    SingleCycleSeries :=
  {| label := series_label label_prefix n;
     experiment_name := name;
     cycle_id := n;
     hex_color := get_plotly_color position;
     color_from_base := use_base_color |}.

(** How many series of the buffer have the pair [p]. *)
Definition count_pair (p : string * nat) (selected_series : list SingleCycleSeries) :
    nat :=
  length (filter (λ series, pair_of series = p) selected_series).

(** *** Sample inputs *)

(** A buffer whose only series was relabelled and recoloured by hand. *)
Definition edited_buffer : list SingleCycleSeries :=
  [{| label := "first cycle"; experiment_name := "A"; cycle_id := 0;
      hex_color := "#000000"; color_from_base := false |}].

(** A session with the experiments A and B, and a buffer with series of
    both. *)
Definition sample_experiment (n : string) : Experiment unit :=
  {| name := n; instrument := "GAMRY"; bytestreams := []; halfcycles := [];
     ordering := []; _cycles := []; _skipped_files := 0;
     volume := None; area := None; color := tt |}.

Definition sample_session : Session unit :=
  {| ProgramStatus := [sample_experiment "A"; sample_experiment "B"];
     SelectedExperimentName := Some "A";
     Page2_CyclePlotSelection := [("A", [0])];
     Page2_ComparisonPlot :=
       [{| label := "A [0]"; experiment_name := "A"; cycle_id := 0;
           hex_color := "#636EFA"; color_from_base := true |};
        {| label := "B [0]"; experiment_name := "B"; cycle_id := 0;
           hex_color := "#EF553B"; color_from_base := true |};
        {| label := "A [1]"; experiment_name := "A"; cycle_id := 1;
           hex_color := "#00CC96"; color_from_base := false |}] |}.

End CyclesPlotter.

(** * Part II: properties *)

(** ** Facts about lists *)

Module ListFacts.

Lemma filter_iff_elem {A} (P1 P2 : A → Prop)
    `{∀ x, Decision (P1 x)} `{∀ x, Decision (P2 x)} (l : list A) :
  (∀ x, x ∈ l → P1 x ↔ P2 x) → filter P1 l = filter P2 l.
Proof.
  induction l as [|x l IH]; intros Hiff; [done|].
  rewrite !filter_cons.
  assert (P1 x ↔ P2 x) as Hx by apply Hiff, list_elem_of_here.
  rewrite IH by (intros; by apply Hiff, list_elem_of_further).
  destruct (decide (P1 x)), (decide (P2 x)); tauto.
Qed.

Lemma filter_none {A} (P : A → Prop) `{∀ x, Decision (P x)} (l : list A) :
  (∀ x, x ∈ l → ¬ P x) → filter P l = [].
Proof.
  induction l as [|x l IH]; intros Hnone; [done|].
  rewrite filter_cons, decide_False by apply Hnone, list_elem_of_here.
  apply IH. intros. by apply Hnone, list_elem_of_further.
Qed.

End ListFacts.

(** ** Facts about dictionaries *)

Module DictFacts.
Import Dict.
Section dict.
Context {K V : Type} `{EqDecision K}.
Implicit Types d : Dict.t K V.

Lemma setitem_nonempty d k v : setitem d k v ≠ [].
Proof. destruct d as [|[k' v'] d]; simpl; [done|]. by case_decide. Qed.

Lemma keys_setitem d k v x :
  x ∈ keys (setitem d k v) ↔ x = k ∨ x ∈ keys d.
Proof.
  unfold keys. induction d as [|[k' v'] d IH]; simpl.
  - rewrite list_elem_of_singleton, elem_of_nil. tauto.
  - case_decide; subst; simpl; rewrite !elem_of_cons; [tauto|].
    rewrite IH. tauto.
Qed.

Lemma get_Some_keys d k : is_Some (get d k) ↔ k ∈ keys d.
Proof.
  unfold keys. induction d as [|[k' v'] d IH]; simpl.
  - split; [intros [? ?]; done | intros H; inversion H].
  - case_decide; subst; rewrite elem_of_cons.
    + split; eauto.
    + rewrite IH. split; [auto | intros [?|?]; done].
Qed.

Lemma get_setitem d k v k' :
  get (setitem d k v) k' = if decide (k' = k) then Some v else get d k'.
Proof.
  induction d as [|[k0 v0] d IH]; simpl.
  - by repeat case_decide.
  - repeat (case_decide; simpl; subst); try done;
      rewrite IH; by case_decide.
Qed.

Lemma get_Some_elem d k v : get d k = Some v → (k, v) ∈ d.
Proof.
  induction d as [|[k0 v0] d IH]; simpl; [done|].
  case_decide; subst.
  - intros [= ->]. apply list_elem_of_here.
  - intros. apply list_elem_of_further. auto.
Qed.

Lemma elem_of_setitem d k v k' v' :
  (k', v') ∈ setitem d k v → (k', v') = (k, v) ∨ (k', v') ∈ d.
Proof.
  induction d as [|[k0 v0] d IH]; simpl.
  - rewrite list_elem_of_singleton. auto.
  - case_decide; subst; rewrite !elem_of_cons; [tauto|].
    intros [?|?]; [tauto|]. destruct IH; auto.
Qed.

Lemma elem_of_keys d k : k ∈ keys d ↔ ∃ v, (k, v) ∈ d.
Proof.
  unfold keys. rewrite list_elem_of_fmap. split.
  - intros [[k' v] [-> ?]]. eauto.
  - intros [v ?]. by exists (k, v).
Qed.

Lemma elem_of_values d v : v ∈ values d ↔ ∃ k, (k, v) ∈ d.
Proof.
  unfold values. rewrite list_elem_of_fmap. split.
  - intros [[k v'] [-> ?]]. eauto.
  - intros [k ?]. by exists (k, v).
Qed.

Lemma keys_setitem_eq d k v :
  keys (setitem d k v) = if decide (k ∈ keys d) then keys d else keys d ++ [k].
Proof.
  unfold keys. induction d as [|[k0 v0] d IH]; csimpl; [done|].
  destruct (decide (k = k0)) as [->|Hne]; csimpl.
  - rewrite decide_True; [done|]. apply list_elem_of_here.
  - rewrite IH. destruct (decide (k ∈ d.*1)).
    + rewrite decide_True; [done|]. by apply list_elem_of_further.
    + rewrite decide_False; [done|]. intros [?|?]%elem_of_cons; done.
Qed.

Lemma NoDup_keys_setitem d k v : NoDup (keys d) → NoDup (keys (setitem d k v)).
Proof.
  intros Hnd. rewrite keys_setitem_eq. case_decide; [done|].
  apply NoDup_app. split; [done|]. split; [|apply NoDup_singleton].
  intros x Hx ->%list_elem_of_singleton. done.
Qed.
End dict.
End DictFacts.

(** ** Facts about the ordering validation *)

Module FileManagerFacts.
Import Dict DictFacts FileManager.

(** *** What the grouping loop computes *)


Lemma max_cycle_from (l : ordering_buffer) (m0 : nat) :
  let m := foldl (λ m e, m `max` e.2.1) m0 l in
  m0 ≤ m ∧ (∀ c, c ∈ cycles l → c ≤ m) ∧ (m = m0 ∨ m ∈ cycles l).
Proof.
  revert m0. induction l as [|e l IH]; intros m0; simpl.
  - split; [lia|]. split; [|by left]. intros c Hc. inversion Hc.
  - destruct (IH (m0 `max` e.2.1)) as (Hle & Hub & Hin).
    unfold cycles. simpl. split; [lia|]. split.
    + intros c [->|Hc]%elem_of_cons; [lia|]. by apply Hub.
    + destruct Hin as [Heq|Hin].
      * destruct (Nat.max_spec m0 (e.2.1)) as [[_ Hm]|[_ Hm]].
        -- right. rewrite Heq, Hm. apply list_elem_of_here.
        -- left. by rewrite Heq, Hm.
      * right. by apply list_elem_of_further.
Qed.

Lemma max_cycle_ge ob c : c ∈ cycles ob → c ≤ max_cycle ob.
Proof. intros. by apply (max_cycle_from ob 0). Qed.

Lemma max_cycle_attained ob : ob ≠ [] → max_cycle ob ∈ cycles ob.
Proof.
  intros Hne. destruct (max_cycle_from ob 0) as (_ & Hub & [H0|Hin]); [|done].
  unfold max_cycle. rewrite H0. destruct ob as [|e ob]; [done|].
  assert (e.2.1 ≤ 0) as Hle.
  { rewrite <-H0. apply Hub. apply list_elem_of_here. }
  replace 0 with (e.2.1) by lia. apply list_elem_of_here.
Qed.

Lemma elem_of_cycles ob c : c ∈ cycles ob ↔ ∃ s, (c, s) ∈ ob.*2.
Proof.
  unfold cycles. rewrite list_elem_of_fmap. split.
  - intros [[f [c' s]] [-> ?]]. exists s. simpl.
    apply list_elem_of_fmap. by exists (f, (c', s)).
  - intros [s [[f [c' s']] [[= -> ->] ?]]%list_elem_of_fmap]. by exists (f, (c', s')).
Qed.


Lemma group_rows n (l : ordering_buffer) :
  (∀ c, c ∈ cycles l → c < n) →
  ∃ st, foldl group_step (Some (false, replicate n [])) l = Some st ∧ grouped n l st.
Proof.
  induction l as [|[f [c s]] l IH] using rev_ind; intros Hlt.
  - eexists; split; [done|]. split; [apply length_replicate|]. split.
    + split; [done|]. intros []. constructor.
    + intros c d [-> _]%lookup_replicate. split.
      * intros s. split; intros H; inversion H.
      * intros s f H. inversion H.
  - destruct IH as [[rep cbb] [Hfold (Hlen & Hrep & Hgrp)]].
    { intros c' Hc'. apply Hlt. unfold cycles in *. rewrite fmap_app.
      apply elem_of_app. by left. }
    simpl in Hlen, Hrep, Hgrp.
    assert (c < length cbb) as Hc.
    { rewrite Hlen. apply Hlt. unfold cycles. rewrite fmap_app.
      apply elem_of_app. right. apply list_elem_of_here. }
    destruct (lookup_lt_is_Some_2 cbb c Hc) as [d Hd].
    rewrite foldl_snoc, Hfold. simpl. rewrite Hd. simpl.
    eexists; split; [done|].
    destruct (Hgrp c d Hd) as [Hkeys Helem].
    split; [simpl; by rewrite length_insert|]. simpl. split.
    + rewrite fmap_app, NoDup_app. simpl.
      unfold Dict.contains. rewrite orb_true_iff, bool_decide_eq_true, Hkeys, Hrep.
      split.
      * intros [Hnd|Hin] (Hl & Hdisj & _); [done|].
        apply (Hdisj _ Hin). apply list_elem_of_here.
      * intros Hn. destruct (decide ((c, s) ∈ l.*2)) as [|Hnotin]; [by right|].
        left. intros Hl. apply Hn. split; [done|]. split; [|apply NoDup_singleton].
        intros x Hx ->%list_elem_of_singleton. done.
    + intros c' d' Hd'. destruct (decide (c' = c)) as [->|Hne].
      * rewrite list_lookup_insert_eq in Hd' by done. injection Hd' as <-. split.
        -- intros s'. rewrite DictFacts.keys_setitem, Hkeys, fmap_app, elem_of_app.
           simpl. rewrite list_elem_of_singleton.
           split; intros [?|?]; simplify_eq; auto.
        -- intros s' f' [[= -> ->]|Hin]%DictFacts.elem_of_setitem; apply elem_of_app.
           ++ right. apply list_elem_of_here.
           ++ left. by apply Helem.
      * rewrite list_lookup_insert_ne in Hd' by done.
        destruct (Hgrp c' d' Hd') as [Hkeys' Helem']. split.
        -- intros s'. rewrite Hkeys', fmap_app, elem_of_app. simpl.
           rewrite list_elem_of_singleton. split; [auto|].
           intros [?|?]; [done|]. by simplify_eq.
        -- intros s' f' Hin. apply elem_of_app. left. by apply Helem'.
Qed.

Lemma group_files_spec ob :
  ∃ st, group_files ob = Some st ∧ grouped (max_cycle ob + 1) ob st.
Proof.
  apply group_rows. intros c Hc%max_cycle_ge. lia.
Qed.



Lemma slot_repetition_NoDup ob : slot_repetition ob ↔ ¬ NoDup ob.*2.
Proof.
  split.
  - intros (i & j & f1 & f2 & c & s & Hne & Hi & Hj) Hnd.
    apply Hne. apply (NoDup_lookup _ i j (c, s) Hnd);
      rewrite list_lookup_fmap; [by rewrite Hi | by rewrite Hj].
  - intros Hn. induction ob as [|[f [c s]] ob IH]; [destruct Hn; constructor|].
    simpl in Hn. rewrite NoDup_cons in Hn.
    destruct (decide ((c, s) ∈ ob.*2)) as [Hin|Hnotin].
    + apply list_elem_of_lookup in Hin as [j Hj].
      rewrite list_lookup_fmap in Hj.
      destruct (ob !! j) as [[f2 [c2 s2]]|] eqn:Hobj; simplify_eq/=.
      by exists 0, (S j), f, f2, c, s.
    + destruct IH as (i & j & f1 & f2 & c' & s' & Hne & Hi & Hj); [tauto|].
      exists (S i), (S j), f1, f2, c', s'. split; [lia|done].
Qed.

Lemma find_missing_spec cbb x :
  x ∈ find_missing cbb ↔ ∃ k, cbb !! k = Some [] ∧ x = pretty k.
Proof.
  unfold find_missing. rewrite list_elem_of_omap. split.
  - intros [[k d] [(i & y & [= -> ->] & Hi)%elem_of_lookup_imap Hx]].
    simpl in Hx. case_decide; simplify_eq. eauto.
  - intros (k & Hk & ->). exists (k, []). split.
    + by apply (elem_of_lookup_imap_2 pair).
    + done.
Qed.

Lemma grouped_empty n ob st k :
  grouped n ob st → (st.2 !! k = Some [] ↔ k < n ∧ k ∉ cycles ob).
Proof.
  intros (Hlen & _ & Hgrp). split.
  - intros Hk. split; [rewrite <-Hlen; by eapply lookup_lt_Some|].
    intros [s Hs]%elem_of_cycles. apply (Hgrp _ _ Hk) in Hs. inversion Hs.
  - intros [Hlt Hnotin]. rewrite <-Hlen in Hlt.
    destruct (lookup_lt_is_Some_2 _ _ Hlt) as [d Hd]. rewrite Hd. f_equal.
    destruct d as [|[s f] d]; [done|]. destruct Hnotin.
    apply elem_of_cycles. exists s. apply (Hgrp _ _ Hd). apply list_elem_of_here.
Qed.

Lemma find_missing_lookup (cbb : list (Dict.t nat string)) :
  find_missing cbb =
  pretty <$> filter (λ k, cbb !! k = Some []) (seq 0 (length cbb)).
Proof.
  unfold find_missing.
  induction cbb as [|d cbb IH] using rev_ind; [done|].
  rewrite imap_app, omap_app, length_app, seq_app, filter_app, fmap_app.
  simpl. f_equal.
  - rewrite IH. f_equal. apply ListFacts.filter_iff_elem.
    intros k Hk%elem_of_seq. by rewrite lookup_app_l by lia.
  - rewrite Nat.add_0_r, filter_cons, filter_nil.
    rewrite list_lookup_middle by done.
    destruct (decide (d = [])) as [->|Hne].
    + by rewrite decide_True.
    + rewrite decide_False; [done|]. by intros [= ->].
Qed.

Lemma find_missing_exact n ob st :
  grouped n ob st →
  find_missing st.2 = pretty <$> filter (λ k, k ∉ cycles ob) (seq 0 n).
Proof.
  intros Hgrp. rewrite find_missing_lookup. pose proof Hgrp as (-> & _).
  f_equal. apply ListFacts.filter_iff_elem. intros k Hk%elem_of_seq.
  rewrite (grouped_empty _ _ _ _ Hgrp). split; [tauto|]. intros. split; [lia|done].
Qed.

Lemma missing_indices_spec ob k :
  k ∈ missing_indices ob ↔ missing_index ob k.
Proof.
  unfold missing_indices, missing_index.
  rewrite list_elem_of_filter, elem_of_seq. split; intros [??]; split; (lia || done).
Qed.

Lemma foldl_max_ge (ks : list nat) (k0 : nat) :
  k0 ≤ foldl Nat.max k0 ks ∧ ∀ k, k ∈ ks → k ≤ foldl Nat.max k0 ks.
Proof.
  revert k0. induction ks as [|k1 ks IH]; intros k0; simpl.
  - split; [lia|]. intros k Hk. inversion Hk.
  - destruct (IH (k0 `max` k1)) as [Hle Hub]. split; [lia|].
    intros k [->|Hk]%elem_of_cons; [lia|]. by apply Hub.
Qed.

Lemma StronglySorted_lt_seq a n : StronglySorted lt (seq a n).
Proof.
  revert a. induction n as [|n IH]; intros a; simpl; constructor; [apply IH|].
  apply Forall_forall. intros k Hk%elem_of_seq. lia.
Qed.

Lemma StronglySorted_filter {A} (R : A → A → Prop) (P : A → Prop)
    `{∀ x, Decision (P x)} (l : list A) :
  StronglySorted R l → StronglySorted R (filter P l).
Proof.
  induction 1 as [|x l Hl IH Hx]; [constructor|].
  rewrite filter_cons. case_decide; [|done]. constructor; [done|].
  apply Forall_forall. intros y [_ Hy]%list_elem_of_filter.
  by eapply Forall_forall in Hx.
Qed.

Lemma NoDup_snd_unique {A B} (l : list (A * B)) a1 a2 b :
  NoDup l.*2 → (a1, b) ∈ l → (a2, b) ∈ l → a1 = a2.
Proof.
  intros Hnd [i Hi]%list_elem_of_lookup [j Hj]%list_elem_of_lookup.
  assert (i = j) as ->.
  { apply (NoDup_lookup _ i j b Hnd); rewrite list_lookup_fmap;
      [by rewrite Hi | by rewrite Hj]. }
  congruence.
Qed.

Lemma order_group_items (d : Dict.t nat string) (l : list nat) :
  Forall2 (λ f s, (s, f) ∈ d)
    (omap (λ i, if Dict.contains d i then Dict.get d i else None) l)
    (filter (λ i, i ∈ Dict.keys d) l).
Proof.
  induction l as [|i l IH]; [constructor|].
  rewrite filter_cons. simpl. unfold Dict.contains at 1.
  destruct (decide (i ∈ Dict.keys d)) as [Hin|Hnotin].
  - rewrite bool_decide_eq_true_2 by done.
    destruct (proj2 (get_Some_keys d i) Hin) as [f Hf]. rewrite Hf.
    constructor; [by apply get_Some_elem|done].
  - by rewrite bool_decide_eq_false_2 by done.
Qed.

Lemma max_key_spec (d : Dict.t nat string) :
  d ≠ [] → ∃ m, max_key d = Some m ∧ ∀ s, s ∈ Dict.keys d → s ≤ m.
Proof.
  intros Hne. unfold max_key.
  destruct (Dict.keys d) as [|k ks] eqn:Hkeys.
  { destruct d; [done|discriminate]. }
  eexists. split; [done|].
  destruct (foldl_max_ge ks k) as [Hk Hks].
  intros s [->|Hs]%elem_of_cons; [done|]. by apply Hks.
Qed.

Lemma order_group_spec (d : Dict.t nat string) :
  d ≠ [] →
  ∃ g slots, order_group d = Some g ∧ StronglySorted lt slots ∧
    Forall2 (λ f s, (s, f) ∈ d) g slots ∧ ∀ s, s ∈ Dict.keys d → s ∈ slots.
Proof.
  intros Hne. destruct (max_key_spec d Hne) as (m & Hm & Hub).
  unfold order_group. rewrite Hm. simpl.
  eexists _, (filter (λ i, i ∈ Dict.keys d) (seq 0 (m + 1))).
  split; [done|]. split; [apply StronglySorted_filter, StronglySorted_lt_seq|].
  split; [apply order_group_items|].
  intros s Hs. apply list_elem_of_filter. split; [done|].
  apply elem_of_seq. apply Hub in Hs. lia.
Qed.

Section properties.
Variable halfcycle_type : string → string.

Abbreviation is_charge := (is_charge halfcycle_type).
Abbreviation validate := (validate halfcycle_type).

(** The cascade that ends the validation, on the table alone: an index
    without file is reported before anything else, with the ascending
    list of all such indices; then a repeated slot; a type mismatch or the
    new ordering only come after both. *)
Lemma validate_cascade ob :
  ∃ rep cbb,
    group_files ob = Some (rep, cbb) ∧
    (rep = true ↔ slot_repetition ob) ∧
    validate ob =
      if decide (missing_indices ob ≠ [])
      then Some (MissingCycleIndices (pretty <$> missing_indices ob))
      else if rep then Some SlotRepetition
      else if type_mismatch halfcycle_type cbb then Some HalfcycleTypeMismatch
      else NewOrdering <$> build_new_ordering cbb.
Proof.
  destruct (group_files_spec ob) as [[rep cbb] [Hfiles Hgrp]].
  exists rep, cbb. split; [done|]. split.
  { rewrite slot_repetition_NoDup. apply Hgrp. }
  unfold FileManager.validate. rewrite Hfiles. simpl.
  pose proof (find_missing_exact _ _ _ Hgrp) as Hexact. simpl in Hexact.
  rewrite Hexact. fold (missing_indices ob).
  destruct (missing_indices ob) as [|k ks] eqn:Hm; [done|].
  rewrite !decide_True; done.
Qed.

Lemma validate_missing ob :
  missing_indices ob ≠ [] →
  validate ob = Some (MissingCycleIndices (pretty <$> missing_indices ob)).
Proof.
  intros Hm. destruct (validate_cascade ob) as (rep & cbb & _ & _ & ->).
  by rewrite decide_True.
Qed.

Lemma validate_repetition ob :
  missing_indices ob = [] → slot_repetition ob →
  validate ob = Some SlotRepetition.
Proof.
  intros Hm Hrep. destruct (validate_cascade ob) as (rep & cbb & _ & Hflag & ->).
  rewrite decide_False by (by intros []).
  apply Hflag in Hrep. by rewrite Hrep.
Qed.

Lemma not_contiguous_missing ob :
  ¬ (∀ k, k ∈ cycles ob ↔ k ≤ max_cycle ob) → ∃ k, missing_index ob k.
Proof.
  intros Hn.
  destruct (decide (Forall (λ k, k ∈ cycles ob) (seq 0 (max_cycle ob + 1))))
    as [Hall|Hex].
  - destruct Hn. intros k. split; [apply max_cycle_ge|].
    intros Hk. eapply Forall_forall in Hall; [done|]. apply elem_of_seq. lia.
  - apply not_Forall_Exists in Hex; [|apply _].
    apply Exists_exists in Hex as (k & Hk%elem_of_seq & Hnotin).
    exists k. split; [lia|done].
Qed.

Lemma group_mismatch_false (d : Dict.t nat string) :
  (∀ f1 f2, f1 ∈ Dict.values d → f2 ∈ Dict.values d →
            halfcycle_type f1 = halfcycle_type f2) →
  group_mismatch halfcycle_type d = false.
Proof.
  intros Hsame. unfold group_mismatch.
  destruct (Dict.values d) as [|f0 fs] eqn:Hvals; [done|].
  rewrite fmap_cons.
  apply not_true_is_false. intros (b & Hb & Hneq)%existsb_exists.
  rewrite <-fmap_cons in Hb. apply list_elem_of_In in Hb.
  apply list_elem_of_fmap in Hb as (f & -> & Hf).
  unfold FileManager.is_charge in Hneq.
  rewrite (Hsame f f0) in Hneq by (try done; apply list_elem_of_here).
  by rewrite Bool.eqb_reflx in Hneq.
Qed.

(** A table whose Halfcycle IDs are exactly [0..N], without repeated
    slots and with one type per group, is accepted: the new ordering has
    [N + 1] groups, each holding exactly the files of its group by
    strictly ascending partial-file index. *)
Lemma validate_accepts ob N :
  (∀ k, k ∈ cycles ob ↔ k ≤ N) →
  NoDup ob.*2 →
  (∀ f1 f2 c s1 s2, (f1, (c, s1)) ∈ ob → (f2, (c, s2)) ∈ ob →
                    halfcycle_type f1 = halfcycle_type f2) →
  ∃ new_ordering,
    validate ob = Some (NewOrdering new_ordering) ∧
    length new_ordering = N + 1 ∧
    ∀ c, c ≤ N → ∃ group slots,
      new_ordering !! c = Some group ∧
      Forall2 (λ f s, (f, (c, s)) ∈ ob) group slots ∧
      StronglySorted lt slots ∧
      ∀ f s, (f, (c, s)) ∈ ob → f ∈ group.
Proof.
  intros Hrange Hnd Htype.
  assert (max_cycle ob = N) as Hmax.
  { assert (N ∈ cycles ob) as HN by by apply Hrange.
    apply Nat.le_antisymm; [|by apply max_cycle_ge].
    apply Hrange, max_cycle_attained. intros ->. inversion HN. }
  destruct (group_files_spec ob) as [[rep cbb] [Hfiles Hgrp]].
  pose proof Hgrp as (Hlen & Hflag & Hgroups). simpl in Hlen, Hflag, Hgroups.
  rewrite Hmax in Hlen.
  assert (∀ c d, cbb !! c = Some d → d ≠ []) as Hfilled.
  { intros c d Hd ->. apply (grouped_empty _ _ _ _ Hgrp) in Hd as [Hlt Hnotin].
    apply Hnotin, Hrange. lia. }
  assert (find_missing cbb = []) as Hmissing.
  { destruct (find_missing cbb) as [|x xs] eqn:Hm; [done|].
    assert (x ∈ find_missing cbb) as Hx by (rewrite Hm; apply list_elem_of_here).
    apply find_missing_spec in Hx as (k & Hk & _). by destruct (Hfilled k [] Hk). }
  assert (rep = false) as ->.
  { destruct rep; [|done]. by destruct (proj1 Hflag eq_refl). }
  assert (type_mismatch halfcycle_type cbb = false) as Hmismatch.
  { apply not_true_is_false. intros (d & Hd & Hbad)%existsb_exists.
    apply list_elem_of_In, list_elem_of_lookup in Hd as [c Hc].
    destruct (Hgroups c d Hc) as [_ Hitems].
    rewrite group_mismatch_false in Hbad; [done|].
    intros f1 f2 [s1 H1]%elem_of_values [s2 H2]%elem_of_values.
    eapply Htype; by apply Hitems. }
  destruct (mapM_is_Some_2 order_group cbb) as [new_ordering Hnew].
  { apply Forall_forall. intros d [c Hc]%list_elem_of_lookup.
    destruct (order_group_spec d (Hfilled c d Hc)) as (g & ? & Hg & _).
    simpl. rewrite Hg. by eexists. }
  exists new_ordering. split; [|split].
  - unfold FileManager.validate. rewrite Hfiles. simpl.
    rewrite Hmissing, Hmismatch. simpl. unfold build_new_ordering.
    by rewrite Hnew.
  - apply length_mapM in Hnew. lia.
  - intros c Hc. apply mapM_Some_1 in Hnew.
    destruct (lookup_lt_is_Some_2 cbb c) as [d Hd]; [lia|].
    destruct (Forall2_lookup_l _ _ _ _ _ Hnew Hd) as (group & Hgroup & Horder).
    destruct (order_group_spec d (Hfilled c d Hd)) as (g & slots & Hg & Hsorted & Hitems & Hkeys).
    simpl in Horder. rewrite Hg in Horder. injection Horder as ->.
    destruct (Hgroups c d Hd) as [Hkeys_ob Hitems_ob].
    exists group, slots. split; [done|]. split; [|split; [done|]].
    + eapply Forall2_impl; [exact Hitems|]. intros f s. apply Hitems_ob.
    + intros f s Hf.
      assert (s ∈ slots) as [i Hi]%list_elem_of_lookup.
      { apply Hkeys, Hkeys_ob. apply list_elem_of_fmap. by exists (f, (c, s)). }
      destruct (Forall2_lookup_r _ _ _ _ _ Hitems Hi) as (f' & Hf' & Hin).
      apply Hitems_ob in Hin.
      rewrite (NoDup_snd_unique ob f f' (c, s) Hnd Hf Hin).
      by eapply list_elem_of_lookup_2.
Qed.

(** *** The claims about the validation *)

(** C1 (as the code has it): when the table holds both a repeated slot and
    an index without file, the warning is the one about the missing
    indices, with all of them as payload; the repetition warning is given
    only when no index is missing, and then whatever the types of the
    files are. The cascade is: missing indices, repetition, type mismatch. *)
Theorem missing_reported_before_repetition ob :
  slot_repetition ob →
  (∀ k, missing_index ob k →
     validate ob = Some (MissingCycleIndices (pretty <$> missing_indices ob)) ∧
     k ∈ missing_indices ob) ∧
  ((∀ k, ¬ missing_index ob k) → validate ob = Some SlotRepetition).
Proof.
  intros Hrep. split.
  - intros k Hk%missing_indices_spec. split; [|done].
    apply validate_missing. intros Hnil. rewrite Hnil in Hk. inversion Hk.
  - intros Hfull. apply validate_repetition; [|done].
    destruct (missing_indices ob) as [|k ks] eqn:Hm; [done|].
    destruct (Hfull k). apply missing_indices_spec. rewrite Hm. apply list_elem_of_here.
Qed.

(** C4: a table whose selected Halfcycle IDs are not exactly [0..max] gets
    the missing-indices warning; its payload is the ascending list of the
    absent indices, so it holds every absent index below the maximum. *)
Theorem missing_cycle_indices_reported ob :
  ¬ (∀ k, k ∈ cycles ob ↔ k ≤ max_cycle ob) →
  ∃ missing,
    validate ob = Some (MissingCycleIndices missing) ∧
    missing = pretty <$> missing_indices ob ∧
    ∀ k, k ∉ cycles ob → k < max_cycle ob → pretty k ∈ missing.
Proof.
  intros [k0 Hk0%missing_indices_spec]%not_contiguous_missing.
  eexists. split; [|split; [done|]].
  - apply validate_missing. intros Hnil. rewrite Hnil in Hk0. inversion Hk0.
  - intros k Hnotin Hlt. apply list_elem_of_fmap. exists k. split; [done|].
    apply missing_indices_spec. split; [lia|done].
Qed.

Variable join_halfcycles : list string → Core.HalfCycle.
Variable is_hidden : option Core.HalfCycle → option Core.HalfCycle → bool.

(** C2: a table whose Halfcycle IDs are exactly [0..N], with no slot
    claimed twice in a group and one type per group, is accepted; the new
    ordering has [N + 1] groups, each made of exactly the files of its
    group by strictly ascending partial-file index, and the assembly gives
    [N + 1] cycles. *)
Theorem contiguous_ordering_accepted ob N :
  (∀ k, k ∈ cycles ob ↔ k ≤ N) →
  ¬ slot_repetition ob →
  (∀ f1 f2 c s1 s2, (f1, (c, s1)) ∈ ob → (f2, (c, s2)) ∈ ob →
                    halfcycle_type f1 = halfcycle_type f2) →
  ∃ new_ordering,
    validate ob = Some (NewOrdering new_ordering) ∧
    length new_ordering = N + 1 ∧
    (∀ c, c ≤ N → ∃ group slots,
       new_ordering !! c = Some group ∧
       Forall2 (λ f s, (f, (c, s)) ∈ ob) group slots ∧
       StronglySorted lt slots ∧
       ∀ f s, (f, (c, s)) ∈ ob → f ∈ group) ∧
    length (assemble halfcycle_type join_halfcycles is_hidden new_ordering) = N + 1.
Proof.
  intros Hrange Hnd Htype.
  rewrite slot_repetition_NoDup in Hnd. apply dec_stable in Hnd.
  destruct (validate_accepts ob N Hrange Hnd Htype) as (o & Hval & Hlen & Hgroups).
  exists o. repeat split; try done.
  unfold assemble. by rewrite length_imap.
Qed.
End properties.


Lemma repeated_and_missing_repetition : slot_repetition repeated_and_missing.
Proof. exists 0, 1, "a.DTA", "b.DTA", 0, 0. split; [lia|]. by split. Qed.

Lemma repeated_and_missing_index : missing_index repeated_and_missing 1.
Proof.
  split; [vm_compute; lia|]. apply (bool_decide_unpack _). by vm_compute.
Qed.

(** C1 (as the spec words it) fails: on this table the repetition is not
    what is reported. *)
Lemma repetition_first_counterexample :
  ¬ (slot_repetition repeated_and_missing →
     (∃ k, missing_index repeated_and_missing k) →
     validate (λ _, "charge") repeated_and_missing = Some SlotRepetition).
Proof.
  intros H.
  specialize (H repeated_and_missing_repetition
                (ex_intro _ 1 repeated_and_missing_index)).
  vm_compute in H. discriminate H.
Qed.

Lemma missing_reported_before_repetition_witness :
  (∀ k, missing_index repeated_and_missing k →
     validate (λ _, "charge") repeated_and_missing =
       Some (MissingCycleIndices (pretty <$> missing_indices repeated_and_missing)) ∧
     k ∈ missing_indices repeated_and_missing) ∧
  ((∀ k, ¬ missing_index repeated_and_missing k) →
   validate (λ _, "charge") repeated_and_missing = Some SlotRepetition).
Proof.
  apply (missing_reported_before_repetition (λ _, "charge") repeated_and_missing).
  exists 0, 1, "a.DTA", "b.DTA", 0, 0. split; [lia|]. split; reflexivity.
Defined.

Lemma missing_cycle_indices_reported_witness :
  ∃ missing,
    validate (λ _, "charge") repeated_and_missing = Some (MissingCycleIndices missing) ∧
    missing = pretty <$> missing_indices repeated_and_missing ∧
    ∀ k, k ∉ cycles repeated_and_missing → k < max_cycle repeated_and_missing →
         pretty k ∈ missing.
Proof.
  apply (missing_cycle_indices_reported (λ _, "charge") repeated_and_missing).
  intros H. assert (1 ∈ cycles repeated_and_missing) as Hin.
  { apply H. vm_compute. lia. }
  revert Hin. apply (bool_decide_unpack _). vm_compute. exact I.
Defined.


Lemma contiguous_ordering_accepted_witness :
  ∃ new_ordering,
    validate (λ _, "charge") two_groups = Some (NewOrdering new_ordering) ∧
    length new_ordering = 1 + 1 ∧
    (∀ c, c ≤ 1 → ∃ group slots,
       new_ordering !! c = Some group ∧
       Forall2 (λ f s, (f, (c, s)) ∈ two_groups) group slots ∧
       StronglySorted lt slots ∧
       ∀ f s, (f, (c, s)) ∈ two_groups → f ∈ group) ∧
    length (assemble (λ _, "charge")
              (λ _, Core.Build_HalfCycle "charge" [] [] [] [] [] [])
              (λ _ _, false) new_ordering) = 1 + 1.
Proof.
  apply (contiguous_ordering_accepted (λ _, "charge") _ _ two_groups 1).
  - intros k. change (cycles two_groups) with [0; 0; 1].
    rewrite !elem_of_cons, elem_of_nil. lia.
  - rewrite slot_repetition_NoDup. intros Hdup. apply Hdup.
    apply (bool_decide_unpack _). vm_compute. exact I.
  - reflexivity.
Defined.

Example two_groups_ordering :
  validate (λ _, "charge") two_groups =
  Some (NewOrdering [["a.DTA"; "b.DTA"]; ["c.DTA"]]).
Proof. reflexivity. Qed.

(** *** The handlers that change an experiment *)

Section handler_facts.
Context {ColorRGB : Type}.
Variable halfcycle_type : string → string.
Variable join_halfcycles : list string → Core.HalfCycle.
Variable is_hidden : option Core.HalfCycle → option Core.HalfCycle → bool.
Variable iadd : Core.Experiment ColorRGB → Core.Experiment ColorRGB →
                Core.Experiment ColorRGB.

(** A table that gets a warning leaves the experiment as it was, and no
    rerun is asked. *)
Lemma rejected_ordering_keeps_experiment (experiment : Core.Experiment ColorRGB)
    ob out :
  validate halfcycle_type ob = Some out →
  (∀ new_ordering, out ≠ NewOrdering new_ordering) →
  ordering_manipulation halfcycle_type join_halfcycles is_hidden experiment ob
  = Some (experiment, false).
Proof.
  intros Hout Hwarn. unfold ordering_manipulation. rewrite Hout. simpl.
  destruct out; try done. by destruct (Hwarn new_ordering).
Qed.

(** On an instrument mismatch the merge is skipped, yet the skipped files
    of the rejected batch are still counted on the selected experiment:
    its counter is the only thing of the registry that can change. *)
Lemma instrument_mismatch_registry (status : list (Core.Experiment ColorRGB))
    selected uploaded index experiment :
  selected ≠ "" →
  Core.get_index_of status selected = Some index →
  status !! index = Some experiment →
  Core.instrument experiment ≠ Core.instrument uploaded →
  (add_to_existing iadd status selected uploaded).1 =
  match skipped_files_of (set_name uploaded selected) with
  | Some ((_ :: _) as skipped) =>
      alter (add_skipped_files (length skipped)) index status
  | _ => status
  end.
Proof.
  intros Hsel Hindex Hexp Hinstr. unfold add_to_existing.
  destruct (decide (selected ≠ "")) as [_|?]; [|done].
  rewrite Hindex, Hexp. simpl.
  rewrite bool_decide_eq_true_2 by done.
  destruct (skipped_files_of (set_name uploaded selected)) as [[|f skipped]|]; [done| |done].
  destruct (decide (f :: skipped ≠ [])) as [_|Hnil]; [|by destruct Hnil].
  by rewrite Hindex.
Qed.
End handler_facts.


(** C3 (failing input): adding the BIOLOGIC batch to the GAMRY experiment
    shows the instrument error and merges nothing, but the handler goes on
    to the skipped files section and adds one to the skipped-file counter
    of the experiment: the experiment is not left as it was. *)
Theorem instrument_mismatch_counts_skipped_files
    (iadd : Core.Experiment unit → Core.Experiment unit → Core.Experiment unit) :
  add_to_existing iadd [gamry_experiment] "exp" biologic_upload =
    ([add_skipped_files 1 gamry_experiment],
     Some {| instrument_error := true; created_experiment := "exp";
             skipped_files := ["b.mpt"] |}) ∧
  add_skipped_files 1 gamry_experiment ≠ gamry_experiment.
Proof. split; [reflexivity|discriminate]. Qed.

End FileManagerFacts.

(** ** Facts about the cycles plotter page *)

Module CyclesPlotterFacts.
Import Core Dict DictFacts CyclesPlotter.

(** *** The constant-interval selection *)

Lemma arange_count (d step i : nat) :
  step ≠ 0 → i < (d + step - 1) / step ↔ i * step < d.
Proof.
  intros Hstep. split.
  - intros Hi. destruct (decide (i * step < d)) as [|Hge]; [done|].
    exfalso. apply (Nat.lt_irrefl i). eapply Nat.lt_le_trans; [exact Hi|].
    apply Nat.lt_succ_r, Nat.Div0.div_lt_upper_bound. nia.
  - intros Hi. apply (Nat.div_le_lower_bound _ _ (S i)); [done|]. nia.
Qed.

Lemma np_arange_Return start stop step :
  step ≠ 0 →
  np_arange start stop step =
  Return ((λ i, start + i * step) <$> seq 0 ((stop - start + step - 1) / step)).
Proof. intros. unfold np_arange. by case_decide. Qed.

Lemma np_arange_elem start stop step l n :
  np_arange start stop step = Return l →
  n ∈ l ↔ ∃ i, n = start + i * step ∧ n < stop.
Proof.
  unfold np_arange. case_decide as Hstep; [done|]. intros [= <-].
  rewrite list_elem_of_fmap. split.
  - intros (i & -> & Hi%elem_of_seq). exists i. split; [done|].
    assert (i * step < stop - start) by (apply arange_count; [done|lia]). lia.
  - intros (i & -> & Hlt). exists i. split; [done|]. apply elem_of_seq.
    split; [lia|]. simpl. apply arange_count; [done|lia].
Qed.

Lemma np_arange_sorted start stop step l :
  np_arange start stop step = Return l → StronglySorted lt l.
Proof.
  unfold np_arange. case_decide as Hstep; [done|]. intros [= <-].
  eapply StronglySorted_fmap; [|apply FileManagerFacts.StronglySorted_lt_seq].
  intros i j Hij. simpl. nia.
Qed.

Lemma StronglySorted_lt_NoDup (l : list nat) : StronglySorted lt l → NoDup l.
Proof.
  induction 1 as [|x l Hl IH Hx]; constructor; [|done].
  intros Hin. eapply Forall_forall in Hx; [|done]. lia.
Qed.

(** C9: with start 0, stop 9 and stride 2 the generated indices are
    [0, 2, 4, 6, 8]; in general the view of the experiment becomes the
    sequence [start, start + stride, ...] up to [stop] included, and when
    [stop] is at most the last cycle index every generated index is the
    index of a cycle of the experiment. *)
Theorem stacked_stride_selection (view : Dict.t string (list nat))
    (current_view : string) (cycles : list Cycle) (start stop stride : nat) :
  1 < length cycles →
  stop ≤ length cycles - 1 →
  1 ≤ stride →
  np_arange 0 (9 + 1) 2 = Return [0; 2; 4; 6; 8] ∧
  ∃ cycles_in_view view',
    np_arange start (stop + 1) stride = Return cycles_in_view ∧
    stacked_stride_apply view current_view start stop stride = Some view' ∧
    Dict.get view' current_view = Some cycles_in_view ∧
    StronglySorted lt cycles_in_view ∧
    (∀ n, n ∈ cycles_in_view ↔ ∃ i, n = start + i * stride ∧ n ≤ stop) ∧
    (∀ n, n ∈ cycles_in_view → start ≤ n ≤ stop ∧ is_Some (cycles !! n)).
Proof.
  intros Hlen Hstop Hstride. split; [reflexivity|].
  assert (stride ≠ 0) as Hne by lia.
  pose proof (np_arange_Return start (stop + 1) stride Hne) as Harange.
  eexists _, _. split; [exact Harange|].
  unfold stacked_stride_apply. rewrite Harange. split; [done|].
  unfold ExperimentSelector_set. rewrite get_setitem, decide_True by done.
  split; [done|]. split; [by eapply np_arange_sorted|].
  assert (∀ n, n ∈ (λ i, start + i * stride) <$>
                 seq 0 ((stop + 1 - start + stride - 1) / stride)
               ↔ ∃ i, n = start + i * stride ∧ n ≤ stop) as Helem.
  { intros n. rewrite (np_arange_elem _ _ _ _ n Harange).
    split; intros (i & -> & ?); exists i; split; (done || lia). }
  split; [exact Helem|].
  intros n (i & -> & Hi)%Helem. split; [lia|].
  apply lookup_lt_is_Some_2. lia.
Qed.

Lemma stacked_stride_selection_witness :
  np_arange 0 (9 + 1) 2 = Return [0; 2; 4; 6; 8] ∧
  ∃ cycles_in_view view',
    np_arange 0 (9 + 1) 2 = Return cycles_in_view ∧
    stacked_stride_apply [("exp", [1; 3])] "exp" 0 9 2 = Some view' ∧
    Dict.get view' "exp" = Some cycles_in_view ∧
    StronglySorted lt cycles_in_view ∧
    (∀ n, n ∈ cycles_in_view ↔ ∃ i, n = 0 + i * 2 ∧ n ≤ 9) ∧
    (∀ n, n ∈ cycles_in_view →
       0 ≤ n ≤ 9 ∧
       is_Some (replicate 10 (Build_Cycle 0 None None false) !! n)).
Proof.
  apply (stacked_stride_selection [("exp", [1; 3])] "exp"
           (replicate 10 (Build_Cycle 0 None None false)) 0 9 2).
  - simpl. lia.
  - simpl. lia.
  - lia.
Defined.

(** *** Removal of the series of one experiment *)

Lemma remove_loop name (buffer kept : list SingleCycleSeries) :
  foldl (λ kept series,
           if decide (experiment_name series ≠ name) then kept ++ [series]
           else kept) kept buffer
  = kept ++ series_not_of name buffer.
Proof.
  revert kept. unfold series_not_of.
  induction buffer as [|series buffer IH]; intros kept; simpl.
  - by rewrite app_nil_r.
  - rewrite IH, filter_cons. case_decide; [|done].
    by rewrite <-app_assoc.
Qed.

Lemma remove_experiment_eq name b :
  remove_experiment_from_series_buffer name b = (series_not_of name b, Return tt).
Proof. unfold remove_experiment_from_series_buffer. by rewrite remove_loop. Qed.

Lemma series_not_of_app name b1 b2 :
  series_not_of name (b1 ++ b2) = series_not_of name b1 ++ series_not_of name b2.
Proof. apply filter_app. Qed.

Lemma series_not_of_idemp name b :
  series_not_of name (series_not_of name b) = series_not_of name b.
Proof. unfold series_not_of. by apply list_filter_filter_l. Qed.

Lemma series_of_not_of name b : series_of name (series_not_of name b) = [].
Proof.
  unfold series_of, series_not_of. rewrite list_filter_filter.
  induction b as [|x b IH]; [done|]. rewrite filter_cons.
  case_decide as H; [by destruct H|done].
Qed.

Lemma series_not_of_other name name' b :
  name' ≠ name → series_of name' (series_not_of name b) = series_of name' b.
Proof.
  intros Hne. unfold series_of, series_not_of.
  apply list_filter_filter_l. congruence.
Qed.

(** C8: the removal by experiment name leaves exactly the series of the
    other experiments, each unchanged and in the order it had; and the
    deletion of an experiment of the registry leaves the buffer in that
    same state, with the experiment gone from the registry position it
    had. *)
Theorem removal_by_experiment_name {ColorRGB : Type}
    (s : Session ColorRGB) (experiment : Experiment ColorRGB) :
  is_Some (get_index_of (ProgramStatus s) (name experiment)) →
  let b := Page2_ComparisonPlot s in
  let b' := (remove_experiment_from_series_buffer (name experiment) b).1 in
  b' = series_not_of (name experiment) b ∧
  b' `sublist_of` b ∧
  (∀ series, series ∈ b' ↔ series ∈ b ∧ experiment_name series ≠ name experiment) ∧
  (∀ other, other ≠ name experiment → series_of other b' = series_of other b) ∧
  ∃ s' index,
    get_index_of (ProgramStatus s) (name experiment) = Some index ∧
    FileManager.delete_experiment s experiment = Some s' ∧
    ProgramStatus s' = delete index (ProgramStatus s) ∧
    Page2_ComparisonPlot s' = b'.
Proof.
  intros [index Hindex] b b'.
  assert (b' = series_not_of (name experiment) b) as Hb'.
  { unfold b'. by rewrite remove_experiment_eq. }
  split; [done|]. rewrite Hb'. split; [apply sublist_filter|].
  split; [intros series; unfold series_not_of; rewrite list_elem_of_filter; tauto|].
  split; [intros other Hne; by apply series_not_of_other|].
  unfold FileManager.delete_experiment. simpl. rewrite Hindex. simpl.
  by eexists _, index.
Qed.

Lemma removal_by_experiment_name_witness :
  let experiment := sample_experiment "A" in
  let b := Page2_ComparisonPlot sample_session in
  let b' := (remove_experiment_from_series_buffer (name experiment) b).1 in
  b' = series_not_of (name experiment) b ∧
  b' `sublist_of` b ∧
  (∀ series, series ∈ b' ↔ series ∈ b ∧ experiment_name series ≠ name experiment) ∧
  (∀ other, other ≠ name experiment → series_of other b' = series_of other b) ∧
  ∃ s' index,
    get_index_of (ProgramStatus sample_session) (name experiment) = Some index ∧
    FileManager.delete_experiment sample_session experiment = Some s' ∧
    ProgramStatus s' = delete index (ProgramStatus sample_session) ∧
    Page2_ComparisonPlot s' = b'.
Proof.
  apply (removal_by_experiment_name sample_session (sample_experiment "A")).
  exists 0. reflexivity.
Defined.

Example sample_session_after_delete :
  Page2_ComparisonPlot <$>
    FileManager.delete_experiment sample_session (sample_experiment "A")
  = Some [{| label := "B [0]"; experiment_name := "B"; cycle_id := 0;
             hex_color := "#EF553B"; color_from_base := true |}].
Proof. reflexivity. Qed.

(** *** The stride based population of the comparison buffer *)

Lemma list_index_elem (l : list nat) (n : nat) :
  n ∈ l → ∃ i, list_index l n = Return i.
Proof.
  intros Hin. unfold list_index.
  destruct (list_find (λ x, x = n) l) as [[i x]|] eqn:Hfind; [by eexists|].
  apply list_find_None in Hfind. eapply Forall_forall in Hfind; [|done]. done.
Qed.

Lemma for_each_preserves {A} (P : list SingleCycleSeries → Prop)
    (body : A → M unit) (l : list A) :
  (∀ x b, x ∈ l → P b → P (body x b).1) →
  ∀ b, P b → P (for_each l body b).1.
Proof.
  induction l as [|x l IH]; intros Hbody b Hb; [done|].
  simpl. unfold bind.
  pose proof (Hbody x b (list_elem_of_here _ _) Hb) as Hx.
  destruct (body x b) as [b1 [[]|e]]; [|done].
  apply IH; [|done]. intros y b2 Hy. apply Hbody. by apply list_elem_of_further.
Qed.

Section comparison_facts.
Variable get_plotly_color : nat → string.

Abbreviation stride_body := (stride_body get_plotly_color).
Abbreviation stride_series := (stride_series get_plotly_color).
Abbreviation comparison_stride_apply := (comparison_stride_apply get_plotly_color).
Abbreviation reachable := (reachable get_plotly_color).

Lemma duplicate_false name n (b : list SingleCycleSeries) :
  existsb (λ series,
             bool_decide (experiment_name series = name ∧ cycle_id series = n)) b
  = false ↔ (name, n) ∉ pair_of <$> b.
Proof.
  rewrite <-not_true_iff_false, existsb_exists. split.
  - intros Hnone (series & Hpair & Hin)%list_elem_of_fmap. apply Hnone.
    exists series. split; [by apply list_elem_of_In|].
    apply bool_decide_eq_true. unfold pair_of in Hpair. by simplify_eq.
  - intros Hnotin (series & Hin%list_elem_of_In & [Hname Hid]%bool_decide_eq_true).
    apply Hnotin, list_elem_of_fmap. exists series. split; [|done].
    unfold pair_of. by rewrite Hname, Hid.
Qed.

Lemma stride_body_step name label_prefix cycle_numbers use_base_color n b :
  n ∈ cycle_numbers →
  (name, n) ∉ pair_of <$> b →
  stride_body name label_prefix cycle_numbers use_base_color n b =
  (b ++ [stride_series name label_prefix use_base_color (length b) n], Return tt).
Proof.
  intros [i Hi]%list_index_elem Hfresh%duplicate_false.
  unfold CyclesPlotter.stride_body, bind, lift, read, append.
  by rewrite Hi, Hfresh.
Qed.

(** Over indices that are all new for the experiment, the loop appends
    one series per index, in order. *)
Lemma stride_loop_fresh name label_prefix cycle_numbers use_base_color
    (l : list nat) (b : list SingleCycleSeries) :
  NoDup l →
  (∀ n, n ∈ l → n ∈ cycle_numbers) →
  (∀ n, n ∈ l → (name, n) ∉ pair_of <$> b) →
  for_each l (stride_body name label_prefix cycle_numbers use_base_color) b =
  (b ++ imap (λ i n, stride_series name label_prefix use_base_color (length b + i) n) l,
   Return tt).
Proof.
  revert b. induction l as [|n l IH]; intros b Hnd Hnum Hfresh; simpl.
  - by rewrite app_nil_r.
  - apply NoDup_cons in Hnd as [Hn Hnd]. unfold bind at 1.
    rewrite stride_body_step by (apply Hnum || apply Hfresh; apply list_elem_of_here).
    rewrite IH; [| done | intros; by apply Hnum, list_elem_of_further |].
    + rewrite <-app_assoc, Nat.add_0_r. simpl. do 3 f_equal.
      apply imap_ext. intros i x _. simpl. rewrite length_app. simpl.
      f_equal. lia.
    + intros n' Hn'. rewrite fmap_app, elem_of_app. simpl.
      rewrite list_elem_of_singleton. intros [Hin|Heq].
      * by apply (Hfresh n'); [apply list_elem_of_further|].
      * unfold pair_of in Heq. simpl in Heq. by simplify_eq.
Qed.

Lemma not_of_fresh name n (b : list SingleCycleSeries) :
  (name, n) ∉ pair_of <$> series_not_of name b.
Proof.
  intros (series & Hpair & [Hne _]%list_elem_of_filter)%list_elem_of_fmap.
  unfold pair_of in Hpair. by simplify_eq.
Qed.

(** The buffer the "Apply" button leaves when every generated index is
    the number of a cycle. *)
Lemma stride_apply_exact name label_prefix cycle_numbers use_base_color
    start stop stride cycles_in_selection (b : list SingleCycleSeries) :
  np_arange start (stop + 1) stride = Return cycles_in_selection →
  (∀ n, n ∈ cycles_in_selection → n ∈ cycle_numbers) →
  comparison_stride_apply name label_prefix cycle_numbers use_base_color
    start stop stride b =
  (series_not_of name b ++
     imap (λ i n, stride_series name label_prefix use_base_color
                    (length (series_not_of name b) + i) n)
          cycles_in_selection,
   Return tt).
Proof.
  intros Harange Hnum. unfold CyclesPlotter.comparison_stride_apply, bind.
  rewrite remove_experiment_eq. unfold lift. rewrite Harange.
  apply stride_loop_fresh; [|done|intros; apply not_of_fresh].
  by eapply StronglySorted_lt_NoDup, np_arange_sorted.
Qed.

(** C5 (as the code has it): the population first removes every buffered
    series of the chosen experiment, then appends one new series for each
    index of [arange(start, stop + 1, stride)], in order, with the label
    prefix and the index as label, the chosen flag, and the palette colour
    of the position it takes; the series of the other experiments stay
    unchanged and in order. No earlier series of the experiment is kept. *)
Theorem stride_population_replaces name label_prefix cycle_numbers
    use_base_color start stop stride (b : list SingleCycleSeries) :
  1 ≤ stride →
  (∀ i, start + i * stride ≤ stop → start + i * stride ∈ cycle_numbers) →
  ∃ cycles_in_selection,
    np_arange start (stop + 1) stride = Return cycles_in_selection ∧
    comparison_stride_apply name label_prefix cycle_numbers use_base_color
      start stop stride b =
    (series_not_of name b ++
       imap (λ i n, stride_series name label_prefix use_base_color
                      (length (series_not_of name b) + i) n)
            cycles_in_selection,
     Return tt).
Proof.
  intros Hstride Hnum. eexists. split; [apply np_arange_Return; lia|].
  apply stride_apply_exact; [apply np_arange_Return; lia|].
  intros n (i & -> & Hi)%(np_arange_elem start (stop + 1) stride);
    [|apply np_arange_Return; lia].
  apply Hnum. lia.
Qed.
End comparison_facts.


(** C5 (as the spec words it) fails: the series already buffered for a
    generated index is not kept. *)
Lemma stride_keeps_existing_counterexample :
  ¬ (∀ series,
       series ∈ edited_buffer → experiment_name series = "A" →
       cycle_id series ∈ [0; 1] →
       series ∈ (comparison_stride_apply pretty "A" "A" [0; 1] true 0 1 1
                   edited_buffer).1).
Proof.
  intros H.
  specialize (H _ (list_elem_of_here _ _) eq_refl (list_elem_of_here _ _)).
  vm_compute in H. apply list_elem_of_In in H.
  destruct H as [H|[H|[]]]; discriminate H.
Qed.

Lemma stride_population_replaces_witness :
  ∃ cycles_in_selection,
    np_arange 0 (1 + 1) 1 = Return cycles_in_selection ∧
    comparison_stride_apply pretty "A" "A" [0; 1] true 0 1 1 edited_buffer =
    (series_not_of "A" edited_buffer ++
       imap (λ i n, stride_series pretty "A" "A" true
                      (length (series_not_of "A" edited_buffer) + i) n)
            cycles_in_selection,
     Return tt).
Proof.
  apply (stride_population_replaces pretty "A" "A" [0; 1] true 0 1 1 edited_buffer).
  - lia.
  - intros i Hi. assert (i = 0 ∨ i = 1) as [->| ->] by lia.
    + apply list_elem_of_here.
    + apply list_elem_of_further, list_elem_of_here.
Defined.

(** *** The buffer never holds a pair twice *)

Lemma pairs_unique_snoc (b : list SingleCycleSeries) series :
  pairs_unique b → pair_of series ∉ pair_of <$> b → pairs_unique (b ++ [series]).
Proof.
  intros Hb Hfresh. unfold pairs_unique. rewrite fmap_app. apply NoDup_app.
  split; [done|]. split; [|apply NoDup_singleton].
  intros p Hp ->%list_elem_of_singleton. done.
Qed.

Lemma pairs_unique_sublist (b b' : list SingleCycleSeries) :
  b' `sublist_of` b → pairs_unique b → pairs_unique b'.
Proof.
  intros Hsub Hb. eapply sublist_NoDup; [exact Hb|]. by apply fmap_sublist.
Qed.

Lemma count_pair_unique (b : list SingleCycleSeries) series :
  pairs_unique b → series ∈ b → count_pair (pair_of series) b = 1.
Proof.
  unfold pairs_unique, count_pair. induction b as [|x b IH]; intros Hnd Hin.
  - inversion Hin.
  - rewrite fmap_cons, NoDup_cons in Hnd. destruct Hnd as [Hx Hnd].
    rewrite filter_cons. destruct (decide (pair_of x = pair_of series)) as [Heq|Hne].
    + simpl. f_equal. apply length_zero_iff_nil, ListFacts.filter_none.
      intros y Hy Hpair. apply Hx. rewrite Heq, <-Hpair.
      apply list_elem_of_fmap. by exists y.
    + apply elem_of_cons in Hin as [->|Hin]; [done|]. by apply IH.
Qed.

Lemma count_pair_le (b : list SingleCycleSeries) p :
  pairs_unique b → count_pair p b ≤ 1.
Proof.
  intros Hb. unfold count_pair.
  destruct (filter (λ series, pair_of series = p) b) as [|x l] eqn:Hf; [simpl; lia|].
  assert (x ∈ filter (λ series, pair_of series = p) b) as [Hp Hx]%list_elem_of_filter
    by (rewrite Hf; apply list_elem_of_here).
  rewrite <-Hf. fold (count_pair p b). rewrite <-Hp.
  by rewrite count_pair_unique.
Qed.

Section invariant_facts.
Variable get_plotly_color : nat → string.

Abbreviation stride_body := (stride_body get_plotly_color).
Abbreviation manual_body := (manual_body get_plotly_color).
Abbreviation stride_series := (stride_series get_plotly_color).
Abbreviation comparison_stride_apply := (comparison_stride_apply get_plotly_color).
Abbreviation reachable := (reachable get_plotly_color).

Lemma stride_body_unique name label_prefix cycle_numbers use_base_color n b :
  pairs_unique b →
  pairs_unique (stride_body name label_prefix cycle_numbers use_base_color n b).1.
Proof.
  intros Hb. unfold CyclesPlotter.stride_body, bind, lift, read, append.
  destruct (list_index cycle_numbers n) as [i|e]; [|done].
  destruct (existsb _ b) eqn:Hdup; [done|]. simpl.
  apply pairs_unique_snoc; [done|]. by apply duplicate_false.
Qed.

Lemma stride_apply_unique name label_prefix cycle_numbers use_base_color
    start stop stride b :
  pairs_unique b →
  pairs_unique (comparison_stride_apply name label_prefix cycle_numbers
                  use_base_color start stop stride b).1.
Proof.
  intros Hb. unfold CyclesPlotter.comparison_stride_apply, bind.
  rewrite remove_experiment_eq.
  assert (pairs_unique (series_not_of name b)) as Hb'.
  { eapply pairs_unique_sublist; [apply sublist_filter|done]. }
  unfold lift. destruct (np_arange start (stop + 1) stride) as [l|e]; [|done].
  apply for_each_preserves; [|done].
  intros n b1 _. apply stride_body_unique.
Qed.

(** The manual selector: the picked indices are new for the experiment,
    and the dictionary of the labels holds each of them once. *)
Lemma manual_loop_unique name cycle_numbers use_base_color
    (items : list (string * option nat)) (b : list SingleCycleSeries) :
  NoDup items.*2 →
  (∀ lbl n, (lbl, Some n) ∈ items → (name, n) ∉ pair_of <$> b) →
  pairs_unique b →
  pairs_unique (for_each items (manual_body name cycle_numbers use_base_color) b).1.
Proof.
  revert b. induction items as [|[lbl [n|]] items IH]; intros b Hnd Hfresh Hb;
    [done| |done].
  rewrite fmap_cons, NoDup_cons in Hnd. destruct Hnd as [Hn Hnd].
  simpl. unfold bind at 1, CyclesPlotter.manual_body. simpl.
  unfold bind at 2, lift. destruct (list_index cycle_numbers n) as [i|e]; [|done].
  unfold bind, read, append. simpl.
  apply IH; [done| |].
  - intros lbl' n' Hin. rewrite fmap_app, elem_of_app. simpl.
    rewrite list_elem_of_singleton. intros [Hold|Heq].
    + by apply (Hfresh lbl' n'); [apply list_elem_of_further|].
    + unfold pair_of in Heq. simpl in Heq. simplify_eq.
      apply Hn. apply list_elem_of_fmap. by exists (lbl', Some n).
  - apply pairs_unique_snoc; [done|].
    apply (Hfresh lbl n). apply list_elem_of_here.
Qed.

Lemma selected_cycles_spec label_prefix (picked : list nat) :
  let selected_cycles : Dict.t string (option nat) :=
    foldl (λ d n, Dict.setitem d (series_label label_prefix n) (Some n)) [] picked in
  NoDup (Dict.keys selected_cycles) ∧
  ∀ lbl v, (lbl, v) ∈ selected_cycles →
    ∃ n, n ∈ picked ∧ lbl = series_label label_prefix n ∧ v = Some n.
Proof.
  induction picked as [|n picked IH] using rev_ind; simpl.
  - split; [constructor|]. intros lbl v H. inversion H.
  - rewrite foldl_snoc. destruct IH as [Hnd Hitems]. split.
    + by apply NoDup_keys_setitem.
    + intros lbl v [[= -> ->]|Hin]%elem_of_setitem.
      * exists n. split; [|done]. apply elem_of_app. right. apply list_elem_of_here.
      * destruct (Hitems lbl v Hin) as (n' & ? & ? & ?). exists n'.
        split; [|done]. apply elem_of_app. by left.
Qed.

Lemma options_fresh (b : list SingleCycleSeries) name cycle_numbers n :
  n ∈ manual_options b name cycle_numbers → (name, n) ∉ pair_of <$> b.
Proof.
  intros [Hn _]%list_elem_of_filter (series & Hpair & Hin)%list_elem_of_fmap.
  apply Hn. unfold exclude. apply list_elem_of_fmap. exists series.
  unfold pair_of in Hpair. simplify_eq. split; [done|].
  by apply list_elem_of_filter.
Qed.

(** Every buffer the page produces holds each pair at most once. *)
Lemma reachable_pairs_unique b : reachable b → pairs_unique b.
Proof.
  induction 1 as [ | b name _ IH
                 | b name label_prefix cycle_numbers use_base_color start stop stride _ IH
                 | b name label_prefix cycle_numbers use_base_color picked _ IH Hpicked
                 | b name cycle_label cycle_numbers use_base_color cycle_number _ IH Hpicked
                 | b series_position _ IH
                 | b series_position new_label new_color override_color _ IH ].
  - constructor.
  - rewrite remove_experiment_eq. simpl.
    eapply pairs_unique_sublist; [apply sublist_filter|done].
  - by apply stride_apply_unique.
  - unfold manual_add_multiple.
    destruct (selected_cycles_spec label_prefix picked) as [Hkeys Hitems].
    apply manual_loop_unique; [| |done].
    + apply NoDup_fmap_2_strong; [|by eapply NoDup_fmap_1].
      intros [l1 v1] [l2 v2] H1 H2 Hv. simpl in Hv. subst v2.
      destruct (Hitems _ _ H1) as (n1 & _ & -> & ->).
      destruct (Hitems _ _ H2) as (n2 & _ & -> & Heq). by simplify_eq.
    + intros lbl n Hin. destruct (Hitems _ _ Hin) as (n' & Hn' & _ & Heq).
      simplify_eq. eapply options_fresh. by apply Hpicked.
  - unfold manual_add_single. apply manual_loop_unique; [| |done].
    + simpl. apply NoDup_singleton.
    + intros lbl n Hin. apply list_elem_of_singleton in Hin.
      injection Hin as _ Hn. eapply options_fresh. by apply Hpicked.
  - simpl. eapply pairs_unique_sublist; [apply sublist_delete|done].
  - simpl. unfold pairs_unique.
    rewrite (list_fmap_alter pair_of _ id), list_alter_id; [done..|].
    by apply Forall_forall.
Qed.

Lemma list_index_Return (l : list nat) n i : list_index l n = Return i → n ∈ l.
Proof.
  unfold list_index.
  destruct (list_find (λ x, x = n) l) as [[j x]|] eqn:Hfind; [|done].
  intros _. apply list_find_Some in Hfind as (Hj & -> & _).
  by eapply list_elem_of_lookup_2.
Qed.

Lemma stride_loop_completes name label_prefix cycle_numbers use_base_color
    (l : list nat) (b : list SingleCycleSeries) :
  (for_each l (stride_body name label_prefix cycle_numbers use_base_color) b).2
    = Return tt →
  ∀ n, n ∈ l → n ∈ cycle_numbers.
Proof.
  revert b. induction l as [|n0 l IH]; intros b Hdone n Hn; [inversion Hn|].
  simpl in Hdone. unfold bind at 1 in Hdone.
  destruct (stride_body name label_prefix cycle_numbers use_base_color n0 b)
    as [b1 [[]|e]] eqn:Hbody; [|done].
  apply elem_of_cons in Hn as [->|Hn]; [|by eapply IH].
  unfold CyclesPlotter.stride_body, bind, lift in Hbody.
  destruct (list_index cycle_numbers n0) as [i|e] eqn:Hi; [|done].
  by eapply list_index_Return.
Qed.

Lemma stride_apply_completes name label_prefix cycle_numbers use_base_color
    start stop stride (b : list SingleCycleSeries) :
  (comparison_stride_apply name label_prefix cycle_numbers use_base_color
     start stop stride b).2 = Return tt →
  ∃ cycles_in_selection,
    np_arange start (stop + 1) stride = Return cycles_in_selection ∧
    ∀ n, n ∈ cycles_in_selection → n ∈ cycle_numbers.
Proof.
  unfold CyclesPlotter.comparison_stride_apply, bind.
  rewrite remove_experiment_eq. unfold lift.
  destruct (np_arange start (stop + 1) stride) as [l|e]; [|done].
  intros Hdone. exists l. split; [done|]. by eapply stride_loop_completes.
Qed.

Lemma series_not_of_stride_series name label_prefix use_base_color k (l : list nat) :
  series_not_of name
    (imap (λ i n, stride_series name label_prefix use_base_color (k + i) n) l) = [].
Proof.
  apply ListFacts.filter_none.
  intros series (i & n & -> & _)%elem_of_lookup_imap Hne. by apply Hne.
Qed.

(** C6: after a stride based population of a buffer of the page, no pair
    (experiment name, cycle index) is held by more than one series; and
    when the population completes, doing it once more leaves the buffer
    as it is, with exactly one series for each generated index of the
    experiment. *)
Theorem stride_population_unique name label_prefix cycle_numbers use_base_color
    start stop stride (b : list SingleCycleSeries) :
  reachable b →
  let r := comparison_stride_apply name label_prefix cycle_numbers use_base_color
             start stop stride b in
  pairs_unique r.1 ∧
  (∀ p, count_pair p r.1 ≤ 1) ∧
  (r.2 = Return tt →
   comparison_stride_apply name label_prefix cycle_numbers use_base_color
     start stop stride r.1 = r ∧
   ∀ cycles_in_selection n,
     np_arange start (stop + 1) stride = Return cycles_in_selection →
     n ∈ cycles_in_selection → count_pair (name, n) r.1 = 1).
Proof.
  intros Hb%reachable_pairs_unique r.
  assert (pairs_unique r.1) as Hr by by apply stride_apply_unique.
  split; [done|]. split; [intros p; by apply count_pair_le|].
  intros Hdone. destruct (stride_apply_completes _ _ _ _ _ _ _ _ Hdone)
    as (l & Harange & Hnum).
  pose proof (stride_apply_exact get_plotly_color name label_prefix cycle_numbers
                use_base_color start stop stride l b Harange Hnum) as Hexact.
  fold r in Hexact. split.
  - rewrite (stride_apply_exact get_plotly_color _ _ _ _ _ _ _ l _ Harange Hnum).
    rewrite Hexact. simpl.
    by rewrite series_not_of_app, series_not_of_idemp,
         series_not_of_stride_series, app_nil_r.
  - intros l' n Harange' Hn. rewrite Harange in Harange'. injection Harange' as <-.
    apply list_elem_of_lookup in Hn as [i Hi].
    apply (count_pair_unique r.1
             (stride_series name label_prefix use_base_color
                (length (series_not_of name b) + i) n)); [done|].
    rewrite Hexact. simpl. apply elem_of_app. right.
    by apply (elem_of_lookup_imap_2
                (λ i n, stride_series name label_prefix use_base_color
                          (length (series_not_of name b) + i) n)).
Qed.
End invariant_facts.

Lemma stride_population_unique_witness :
  let r := comparison_stride_apply pretty "A" "A" [0; 1] true 0 1 1 edited_buffer in
  pairs_unique r.1 ∧
  (∀ p, count_pair p r.1 ≤ 1) ∧
  (r.2 = Return tt →
   comparison_stride_apply pretty "A" "A" [0; 1] true 0 1 1 r.1 = r ∧
   ∀ cycles_in_selection n,
     np_arange 0 (1 + 1) 1 = Return cycles_in_selection →
     n ∈ cycles_in_selection → count_pair ("A", n) r.1 = 1).
Proof.
  apply (stride_population_unique pretty "A" "A" [0; 1] true 0 1 1 edited_buffer).
  change edited_buffer with
    (series_apply 0 "first cycle" "#000000" true
       (manual_add_single pretty "A" "A [0]" [0; 1] true (Some 0) []).1).1.
  apply reachable_series_apply, (reachable_manual_single pretty [] "A" "A [0]" [0; 1]).
  - apply reachable_init.
  - intros n [= <-]. apply list_elem_of_here.
Defined.

(** *** Colour of a trace *)

Lemma series_of_app name b1 b2 :
  series_of name (b1 ++ b2) = series_of name b1 ++ series_of name b2.
Proof. apply filter_app. Qed.

Lemma series_of_singleton name entry :
  series_of name [entry] = if decide (experiment_name entry = name) then [entry] else [].
Proof. unfold series_of. rewrite filter_cons, filter_nil. by case_decide. Qed.

Lemma experiment_based_selection_get (b : list SingleCycleSeries) name :
  Dict.get (experiment_based_selection b) name =
  if decide (series_of name b = []) then None
  else Some (cycle_id <$> series_of name b).
Proof.
  unfold experiment_based_selection.
  induction b as [|entry b IH] using rev_ind; [done|].
  rewrite foldl_snoc, series_of_app, series_of_singleton.
  set (selection := foldl _ [] b) in *.
  destruct (decide (experiment_name entry = name)) as [<-|Hne].
  - rewrite IH. destruct (decide (series_of (experiment_name entry) b = [])) as [Hnil|Hcons].
    + rewrite get_setitem, decide_True by done. by rewrite Hnil.
    + rewrite get_setitem, decide_True by done.
      rewrite decide_False by (by intros [? _]%app_eq_nil).
      by rewrite fmap_app.
  - rewrite app_nil_r.
    destruct (Dict.get selection (experiment_name entry));
      rewrite get_setitem, decide_False by done; apply IH.
Qed.

Lemma list_index_middle (l1 l2 : list nat) x :
  x ∉ l1 → list_index (l1 ++ x :: l2) x = Return (length l1).
Proof.
  intros Hx. unfold list_index. rewrite list_find_app_r.
  - simpl. by rewrite decide_True.
  - apply list_find_None, Forall_forall. by intros y Hy ->.
Qed.

Section rendering_facts.
Context {ColorRGB RGB : Type}.
Variable get_shade : ColorRGB → nat → nat → bool → RGB.
Variable RGB_to_HEX : RGB → string.
Variable get_plotly_color : nat → string.

(** C7: for a series of a buffer of the page, the colour of its trace is
    the stored hex colour exactly when its flag is off; when the flag is
    on it is the shade computed from the rank of the series among the
    buffered series of its experiment and from their number, whatever the
    stored colour is. *)
Theorem color_from_rank (status : list (Experiment ColorRGB)) (reverse : bool)
    (b : list SingleCycleSeries) (i : nat) (entry : SingleCycleSeries)
    (index : nat) (experiment : Experiment ColorRGB) :
  reachable get_plotly_color b →
  b !! i = Some entry →
  get_index_of status (experiment_name entry) = Some index →
  status !! index = Some experiment →
  cycle_id entry < length (_cycles experiment) →
  let rank := length (series_of (experiment_name entry) (take i b)) in
  let total := length (series_of (experiment_name entry) b) in
  trace_color get_shade RGB_to_HEX status reverse b entry =
  Some (if color_from_base entry
        then RGB_to_HEX (get_shade (color experiment) rank total reverse)
        else hex_color entry).
Proof.
  intros Hb%reachable_pairs_unique Hi Hindex Hexp Hcycle rank total.
  pose proof (take_drop_middle b i entry Hi) as Hsplit.
  set (name := experiment_name entry) in *.
  assert (series_of name b =
          series_of name (take i b) ++ entry :: series_of name (drop (S i) b)) as Hof.
  { rewrite <-Hsplit at 1. rewrite series_of_app. f_equal.
    change (entry :: drop (S i) b) with ([entry] ++ drop (S i) b).
    rewrite series_of_app, series_of_singleton. by rewrite decide_True. }
  assert (cycle_id entry ∉ cycle_id <$> series_of name (take i b)) as Hfresh.
  { intros (series & Hid & [Hname Hin]%list_elem_of_filter)%list_elem_of_fmap.
    unfold pairs_unique in Hb. rewrite <-Hsplit, fmap_app in Hb.
    apply NoDup_app in Hb as (_ & Hdisj & _).
    apply (Hdisj (pair_of entry)).
    - apply list_elem_of_fmap. exists series. split; [|done].
      unfold pair_of. fold name. by rewrite Hname, Hid.
    - rewrite fmap_cons. apply list_elem_of_here. }
  unfold trace_color. fold name. rewrite Hindex. simpl. rewrite Hexp. simpl.
  destruct (lookup_lt_is_Some_2 _ _ Hcycle) as [cycle ->]. simpl.
  rewrite experiment_based_selection_get.
  rewrite decide_False by (rewrite Hof; by intros [_ ?]%app_eq_nil). simpl.
  rewrite Hof at 1. rewrite fmap_app, fmap_cons.
  rewrite list_index_middle by done. simpl.
  rewrite !length_fmap. fold rank total.
  by destruct (color_from_base entry).
Qed.
End rendering_facts.

Lemma color_from_rank_witness :
  let b := (comparison_stride_apply pretty "A" "A" [0; 1] true 0 1 1 []).1 in
  let experiment :=
    {| name := "A"; instrument := "GAMRY"; bytestreams := []; halfcycles := [];
       ordering := []; _cycles := replicate 2 (Build_Cycle 0 None None false);
       _skipped_files := 0; volume := None; area := None; color := "#ff0000" |} in
  let entry := stride_series pretty "A" "A" true 1 1 in
  trace_color (λ base i n (reversed : bool), (base, i, n)) (λ rgb, rgb.1.1)
    [experiment] false b entry =
  Some (if color_from_base entry
        then (λ rgb : string * nat * nat, rgb.1.1)
               (color experiment,
                length (series_of (experiment_name entry) (take 1 b)),
                length (series_of (experiment_name entry) b))
        else hex_color entry).
Proof.
  intros b experiment entry.
  apply (color_from_rank (λ base i n (reversed : bool), (base, i, n))
           (λ rgb, rgb.1.1) pretty [experiment] false b 1 entry 0 experiment).
  - apply reachable_stride, reachable_init.
  - reflexivity.
  - reflexivity.
  - reflexivity.
  - simpl. lia.
Defined.

(** *** The metric-series accessor *)

(** C10: on the six metric names the accessor always returns a pair; time
    and voltage come back as they are whatever the factors; current and
    power are divided by the area when an area is given, energy by the
    volume when a volume is given (with the labels of the densities), and
    charge by the volume, under the label of the volumetric capacity;
    without the relevant factor the raw series comes back under the raw
    unit. Any other name raises. *)
Theorem metric_series_normalization (halfcycle : HalfCycle)
    (volume area : option float) :
  let series title := get_halfcycle_series halfcycle title volume area in
  Forall (λ title, is_Some (series title)) HALFCYCLE_SERIES ∧
  series "time" = Some ("Time (s)", time halfcycle) ∧
  series "voltage" = Some ("Voltage (V)", voltage halfcycle) ∧
  series "current" =
    Some (match area with
          | None => ("Current (A)", current halfcycle)
          | Some a => ("Current density (A/cm<sup>2</sup>)",
                       (λ v, PrimFloat.div v a) <$> current halfcycle)
          end) ∧
  series "charge" =
    Some (match volume with
          | None => ("Capacity (mAh)", Q halfcycle)
          | Some vol => ("Volumetric capacity (Ah/L)",
                         (λ v, PrimFloat.div v (PrimFloat.mul Series.thousand vol))
                           <$> Q halfcycle)
          end) ∧
  series "power" =
    Some (match area with
          | None => ("Power (W)", power halfcycle)
          | Some a => ("Power density (mW/cm<sup>2</sup>)",
                       (λ v, PrimFloat.div (PrimFloat.mul Series.thousand v) a)
                         <$> power halfcycle)
          end) ∧
  series "energy" =
    Some (match volume with
          | None => ("Energy (mWh)", energy halfcycle)
          | Some vol => ("Energy density (Wh/L)",
                         (λ v, PrimFloat.div v (PrimFloat.mul Series.thousand vol))
                           <$> energy halfcycle)
          end) ∧
  ∀ title, title ∉ HALFCYCLE_SERIES → series title = None.
Proof.
  intros series. unfold series, get_halfcycle_series. simpl.
  split.
  { repeat constructor; simpl; destruct volume, area; by eexists. }
  do 2 (split; [done|]).
  split; [by destruct area|].
  split; [by destruct volume|].
  split.
  { destruct area; [|done]. unfold Series.div, Series.rmul.
    by rewrite <-list_fmap_compose. }
  split; [by destruct volume|].
  intros title Hnot. unfold HALFCYCLE_SERIES in Hnot.
  repeat (case_decide;
          [exfalso; apply Hnot; subst title;
           repeat (apply list_elem_of_here || apply list_elem_of_further)|]).
  done.
Qed.

End CyclesPlotterFacts.

(** ** More about strings and dictionaries *)

Module StringFacts.

Lemma string_length_app (a s : string) :
  String.length (a ++ s)%string = String.length a + String.length s.
Proof. induction a as [|x a IH]; simpl; [done|]. by rewrite IH. Qed.

Lemma string_app_inj_r (s a b : string) :
  (a ++ s)%string = (b ++ s)%string → a = b.
Proof.
  revert b. induction a as [|x a IH]; intros [|y b]; [done| | |].
  - intros H. apply (f_equal String.length) in H.
    rewrite !string_length_app in H. simpl in H. lia.
  - intros H. apply (f_equal String.length) in H.
    rewrite !string_length_app in H. simpl in H. lia.
  - intros H. apply (f_equal String.length) in H as Hlen.
    cbn in H. injection H as -> H. f_equal. by apply IH.
Qed.

End StringFacts.

Module DictProperties.
Import Dict DictFacts.

Lemma elem_of_setitem_iff {K V} `{EqDecision K} (d : Dict.t K V) k v k' v' :
  NoDup (Dict.keys d) →
  (k', v') ∈ Dict.setitem d k v ↔ (k', v') = (k, v) ∨ ((k', v') ∈ d ∧ k' ≠ k).
Proof.
  unfold Dict.keys. induction d as [|[k0 v0] d IH]; csimpl; intros Hnd.
  - rewrite list_elem_of_singleton. split; [auto|]. intros [?|[H _]]; [done|].
    inversion H.
  - apply NoDup_cons in Hnd as [Hk0 Hnd].
    destruct (decide (k = k0)) as [->|Hne]; rewrite !elem_of_cons.
    + split.
      * intros [?|Hin]; [by left|]. right. split; [by right|].
        intros ->. apply Hk0, list_elem_of_fmap. by exists (k0, v').
      * intros [?|[[?|?] ?]]; [by left|by simplify_eq|by right].
    + rewrite IH by done. split.
      * intros [?|[?|[??]]]; [|by left|]; right; (split; [auto|]); by simplify_eq.
      * intros [?|[[?|?] ?]]; [by right; left|by left|]. right. by right.
Qed.

Lemma setitem_fresh {K V} `{EqDecision K} (d : Dict.t K V) k v :
  k ∉ Dict.keys d → Dict.setitem d k v = d ++ [(k, v)].
Proof.
  unfold Dict.keys. induction d as [|[k0 v0] d IH]; csimpl; [done|].
  intros [Hne Hnotin]%not_elem_of_cons.
  rewrite decide_False by done. by rewrite IH.
Qed.

Lemma setitem_last {K V} `{EqDecision K} (d : Dict.t K V) k v v' :
  k ∉ Dict.keys d → Dict.setitem (d ++ [(k, v)]) k v' = d ++ [(k, v')].
Proof.
  unfold Dict.keys. induction d as [|[k0 v0] d IH]; csimpl.
  - intros _. by rewrite decide_True.
  - intros [Hne Hnotin]%not_elem_of_cons.
    rewrite decide_False by done. by rewrite IH.
Qed.

End DictProperties.

(** ** More about the file manager page *)

Module FileManagerProperties.
Import Dict DictFacts DictProperties StringFacts FileManager FileManagerFacts.

(** *** The outcome of the validation *)

Section validation.
Variable halfcycle_type : string → string.

Abbreviation is_charge := (is_charge halfcycle_type).
Abbreviation validate := (validate halfcycle_type).
Abbreviation type_clash := (type_clash halfcycle_type).

Lemma group_mismatch_values (d : Dict.t nat string) :
  group_mismatch halfcycle_type d = true ↔
  ∃ f1 f2, f1 ∈ Dict.values d ∧ f2 ∈ Dict.values d ∧ is_charge f1 ≠ is_charge f2.
Proof.
  unfold group_mismatch.
  destruct (Dict.values d) as [|f0 fs] eqn:Hvals.
  { split; [done|]. intros (f1 & _ & H & _). inversion H. }
  rewrite fmap_cons, <-fmap_cons, existsb_exists. split.
  - intros (b & (f & -> & Hf)%list_elem_of_In%list_elem_of_fmap & Hneq).
    exists f, f0. split; [done|]. split; [apply list_elem_of_here|].
    intros Heq. rewrite Heq in Hneq. by rewrite Bool.eqb_reflx in Hneq.
  - intros (f1 & f2 & H1 & H2 & Hneq).
    destruct (decide (is_charge f1 = is_charge f0)) as [Heq|Hne].
    + exists (is_charge f2). split.
      * apply list_elem_of_In, list_elem_of_fmap. by exists f2.
      * rewrite <-Heq. destruct (is_charge f1), (is_charge f2); done.
    + exists (is_charge f1). split.
      * apply list_elem_of_In, list_elem_of_fmap. by exists f1.
      * destruct (is_charge f1), (is_charge f0); done.
Qed.

Lemma grouped_values n ob st c d f :
  grouped n ob st → NoDup ob.*2 → st.2 !! c = Some d →
  f ∈ Dict.values d ↔ ∃ s, (f, (c, s)) ∈ ob.
Proof.
  intros (_ & _ & Hgroups) Hnd Hd. destruct (Hgroups c d Hd) as [Hkeys Hitems].
  rewrite elem_of_values. split.
  - intros [s Hs]. exists s. by apply Hitems.
  - intros [s Hs]. exists s.
    assert (s ∈ Dict.keys d) as [f' Hf']%elem_of_keys.
    { apply Hkeys, list_elem_of_fmap. by exists (f, (c, s)). }
    pose proof (Hitems _ _ Hf') as Hin.
    by rewrite (NoDup_snd_unique ob f f' (c, s) Hnd Hs Hin).
Qed.

Lemma mismatch_type_clash n ob st :
  grouped n ob st → type_mismatch halfcycle_type st.2 = true → type_clash ob.
Proof.
  intros Hgrp (d & [c Hc]%list_elem_of_In%list_elem_of_lookup & Hbad)%existsb_exists.
  apply group_mismatch_values in Hbad as (f1 & f2 & [s1 H1]%elem_of_values
                                          & [s2 H2]%elem_of_values & Hneq).
  destruct Hgrp as (_ & _ & Hgroups). destruct (Hgroups c d Hc) as [_ Hitems].
  exists f1, f2, c, s1, s2. split; [by apply Hitems|]. split; [by apply Hitems|done].
Qed.

Lemma type_clash_mismatch ob st :
  grouped (max_cycle ob + 1) ob st → NoDup ob.*2 → type_clash ob →
  type_mismatch halfcycle_type st.2 = true.
Proof.
  intros Hgrp Hnd (f1 & f2 & c & s1 & s2 & H1 & H2 & Hneq).
  assert (is_Some (st.2 !! c)) as [d Hd].
  { apply lookup_lt_is_Some_2. destruct Hgrp as (-> & _).
    assert (c ≤ max_cycle ob); [|lia].
    apply max_cycle_ge, elem_of_cycles. exists s1.
    apply list_elem_of_fmap. by exists (f1, (c, s1)). }
  apply existsb_exists. exists d. split.
  - apply list_elem_of_In. by eapply list_elem_of_lookup_2.
  - apply group_mismatch_values. exists f1, f2.
    split; [apply (grouped_values _ _ _ _ _ _ Hgrp Hnd Hd); eauto|].
    split; [apply (grouped_values _ _ _ _ _ _ Hgrp Hnd Hd); eauto|done].
Qed.

(** In its last branch the validation has every group filled, so that
    [max(buffer.keys())] has something to work on. *)
Lemma new_ordering_built ob st :
  grouped (max_cycle ob + 1) ob st → missing_indices ob = [] →
  is_Some (build_new_ordering st.2).
Proof.
  intros Hgrp Hm. apply mapM_is_Some_2, Forall_forall.
  intros d [c Hc]%list_elem_of_lookup. simpl.
  destruct (decide (d = [])) as [->|Hne].
  - apply (grouped_empty _ _ _ _ Hgrp) in Hc as [Hlt Hnotin].
    assert (c ∈ missing_indices ob) as Hin.
    { apply missing_indices_spec. split; [lia|done]. }
    rewrite Hm in Hin. inversion Hin.
  - destruct (order_group_spec d Hne) as (g & ? & -> & _). by eexists.
Qed.

(** X1: the validation never raises: [cycle_based_buffer[cycle]] is always
    in range and [max()] never gets an empty dictionary. It ends with
    exactly one of four outcomes, each in its own situation: the missing
    indices when there are some; else the repetition when two rows share a
    slot; else the type mismatch when a group mixes charge files with
    others; else a new ordering. *)
Theorem validation_outcome ob :
  ∃ out, validate ob = Some out ∧
    match out with
    | MissingCycleIndices missing =>
        missing = pretty <$> missing_indices ob ∧ missing_indices ob ≠ []
    | SlotRepetition => missing_indices ob = [] ∧ slot_repetition ob
    | HalfcycleTypeMismatch =>
        missing_indices ob = [] ∧ ¬ slot_repetition ob ∧ type_clash ob
    | NewOrdering new_ordering =>
        missing_indices ob = [] ∧ ¬ slot_repetition ob ∧ ¬ type_clash ob ∧
        length new_ordering = max_cycle ob + 1
    end.
Proof.
  destruct (validate_cascade halfcycle_type ob) as (rep & cbb & Hfiles & Hflag & ->).
  destruct (group_files_spec ob) as (st & Hst & Hgrp).
  rewrite Hfiles in Hst. injection Hst as <-.
  destruct (decide (missing_indices ob ≠ [])) as [Hm|Hm]; [by eexists|].
  apply dec_stable in Hm.
  destruct rep.
  { eexists. split; [done|]. split; [done|]. by apply Hflag. }
  assert (¬ slot_repetition ob) as Hrep by (rewrite <-Hflag; done).
  destruct (type_mismatch halfcycle_type cbb) eqn:Hmis.
  { eexists. split; [done|]. split; [done|]. split; [done|].
    by eapply (mismatch_type_clash _ _ (false, cbb)). }
  destruct (new_ordering_built ob (false, cbb) Hgrp Hm) as [o Ho]. simpl in Ho.
  rewrite Ho. eexists. split; [done|]. split; [done|]. split; [done|]. split.
  - intros Hclash. rewrite slot_repetition_NoDup in Hrep. apply dec_stable in Hrep.
    pose proof (type_clash_mismatch ob (false, cbb) Hgrp Hrep Hclash) as Hbad.
    simpl in Hbad. congruence.
  - apply length_mapM in Ho. destruct Hgrp as (Hlen & _). simpl in Hlen. lia.
Qed.

(** X2: a table with every group filled and no slot claimed twice, in
    which some group holds a charge file and a file of another type, gets
    the type mismatch warning. *)
Theorem type_clash_reported ob :
  missing_indices ob = [] → ¬ slot_repetition ob → type_clash ob →
  validate ob = Some HalfcycleTypeMismatch.
Proof.
  intros Hm Hrep Hclash.
  destruct (validate_cascade halfcycle_type ob) as (rep & cbb & Hfiles & Hflag & ->).
  destruct (group_files_spec ob) as (st & Hst & Hgrp).
  rewrite Hfiles in Hst. injection Hst as <-.
  rewrite decide_False by (by intros []).
  destruct rep; [by destruct Hrep; apply Hflag|].
  rewrite slot_repetition_NoDup in Hrep. apply dec_stable in Hrep.
  pose proof (type_clash_mismatch ob (false, cbb) Hgrp Hrep Hclash) as Hbad.
  simpl in Hbad. by rewrite Hbad.
Qed.
End validation.

(** The validation only looks at whether a file is a charge file. *)
Lemma validate_ext (h1 h2 : string → string) ob :
  (∀ f, FileManager.is_charge h1 f = FileManager.is_charge h2 f) →
  FileManager.validate h1 ob = FileManager.validate h2 ob.
Proof.
  intros Hext. unfold FileManager.validate.
  destruct (group_files ob) as [[rep cbb]|]; [|done]. simpl.
  assert (type_mismatch h1 cbb = type_mismatch h2 cbb) as ->; [|done].
  unfold type_mismatch. induction cbb as [|d cbb IH]; [done|].
  simpl. rewrite IH. f_equal. unfold group_mismatch.
  by rewrite (list_fmap_ext (FileManager.is_charge h1) (FileManager.is_charge h2))
    by (intros; apply Hext).
Qed.

Lemma validate_accepts_charge (halfcycle_type : string → string) ob N :
  (∀ k, k ∈ cycles ob ↔ k ≤ N) →
  NoDup ob.*2 →
  (∀ f1 f2 c s1 s2, (f1, (c, s1)) ∈ ob → (f2, (c, s2)) ∈ ob →
     FileManager.is_charge halfcycle_type f1 = FileManager.is_charge halfcycle_type f2) →
  ∃ new_ordering,
    FileManager.validate halfcycle_type ob = Some (NewOrdering new_ordering) ∧
    length new_ordering = N + 1 ∧
    ∀ c, c ≤ N → ∃ group slots,
      new_ordering !! c = Some group ∧
      Forall2 (λ f s, (f, (c, s)) ∈ ob) group slots ∧
      StronglySorted lt slots ∧
      ∀ f s, (f, (c, s)) ∈ ob → f ∈ group.
Proof.
  intros Hrange Hnd Htype.
  set (tag := λ f, if FileManager.is_charge halfcycle_type f
                   then "charge" else "discharge").
  assert (∀ f, FileManager.is_charge halfcycle_type f = FileManager.is_charge tag f)
    as Htag.
  { intros f. unfold tag, FileManager.is_charge.
    by destruct (bool_decide (halfcycle_type f = "charge")). }
  rewrite (validate_ext halfcycle_type tag ob Htag).
  apply validate_accepts; [done..|].
  intros f1 f2 c s1 s2 H1 H2. unfold tag. by rewrite (Htype f1 f2 c s1 s2).
Qed.

Lemma sorted_lookup_lt (slots : list nat) i j a b :
  StronglySorted lt slots → slots !! i = Some a → slots !! j = Some b →
  i < j → a < b.
Proof.
  intros Hsorted Hi Hj Hlt.
  rewrite <-(take_drop_middle slots j b Hj) in Hsorted.
  eapply StronglySorted_app_1_elem_of; [exact Hsorted| |apply list_elem_of_here].
  apply (list_elem_of_lookup_2 _ i). by rewrite lookup_take_lt.
Qed.

Lemma sorted_slots_seq (slots : list nat) n :
  StronglySorted lt slots → (∀ s, s ∈ slots ↔ s < n) → slots = seq 0 n.
Proof.
  intros Hsorted Helem.
  apply (StronglySorted_unique_strong lt); [intros; lia|done| |].
  - apply StronglySorted_lt_seq.
  - apply NoDup_Permutation.
    + by apply CyclesPlotterFacts.StronglySorted_lt_NoDup.
    + apply NoDup_seq.
    + intros s. rewrite Helem, elem_of_seq. lia.
Qed.

(** *** The table of number inputs *)

Lemma elem_of_table_rows (current_ordering : list (list string)) c s f :
  (c, s, f) ∈ table_rows current_ordering ↔ placed current_ordering c s f.
Proof.
  unfold table_rows, placed. rewrite list_elem_of_join. split.
  - intros (l & Hl & (c' & g & -> & Hg)%elem_of_lookup_imap).
    apply elem_of_lookup_imap in Hl as (s' & f' & [= -> -> ->] & Hf). eauto.
  - intros (g & Hg & Hf). eexists. split.
    + by apply (elem_of_lookup_imap_2 (λ halfcycle filename, (c, halfcycle, filename))).
    + by apply (elem_of_lookup_imap_2
                  (λ cycle cycle_list,
                     imap (λ halfcycle filename, (cycle, halfcycle, filename))
                          cycle_list)).
Qed.

(** What the loop over the rows [l] leaves, when the session holds the
    defaults and no file comes twice. *)
Lemma table_loop_untouched (state : string → option nat)
    (l : list (nat * nat * string)) :
  (∀ c s f, (c, s, f) ∈ l →
     number_input state ("Cycle_" ++ f)%string c = c ∧
     number_input state ("Halfcycle_" ++ f)%string s = s) →
  (∀ c1 s1 c2 s2 f, (c1, s1, f) ∈ l → (c2, s2, f) ∈ l → c1 = c2 ∧ s1 = s2) →
  let t := foldl (table_step state) (0, []) l in
  NoDup (Dict.keys t.2) ∧
  (∀ f c s, (f, (c, s)) ∈ t.2 ↔ (c, s, f) ∈ l) ∧
  (∀ c s f, (c, s, f) ∈ l → c ≤ t.1) ∧
  (t.1 = 0 ∨ ∃ s f, (t.1, s, f) ∈ l).
Proof.
  induction l as [|[[c s] f] l IH] using rev_ind; intros Hstate Honce t.
  - split; [constructor|]. split; [|split; [|by left]].
    + intros. split; intros H; inversion H.
    + intros ??? H. inversion H.
  - destruct IH as (Hkeys & Hmem & Hub & Hmax).
    { intros. apply Hstate, elem_of_app. by left. }
    { intros ????? H1 H2. eapply Honce; apply elem_of_app; left; eauto. }
    destruct (Hstate c s f) as [Hc Hs]; [apply elem_of_app; right; apply list_elem_of_here|].
    unfold t. rewrite foldl_snoc. set (t0 := foldl (table_step state) (0, []) l) in *.
    unfold table_step. rewrite Hc, Hs.
    rewrite decide_False by (intros [?|?]; done). simpl.
    split; [by apply NoDup_keys_setitem|]. split; [|split].
    + intros f' c' s'. rewrite elem_of_setitem_iff by done.
      rewrite Hmem, elem_of_app, list_elem_of_singleton. split.
      * intros [[= -> -> ->]|[Hin _]]; [by right|by left].
      * intros [Hin|[= -> -> ->]]; [|by left].
        destruct (decide (f' = f)) as [->|Hne]; [|by right].
        left. destruct (Honce c' s' c s f) as [-> ->]; [| |done];
          apply elem_of_app; [by left|right; apply list_elem_of_here].
    + intros c' s' f' [Hin|[= -> -> ->]%list_elem_of_singleton]%elem_of_app; [|lia].
      apply Hub in Hin. lia.
    + destruct (Nat.max_spec t0.1 c) as [[_ ->]|[_ ->]].
      * right. exists s, f. apply elem_of_app. right. apply list_elem_of_here.
      * destruct Hmax as [?|(s' & f' & Hin)]; [by left|].
        right. exists s', f'. apply elem_of_app. by left.
Qed.

Lemma NoDup_fst_unique {A B} (l : list (A * B)) a b1 b2 :
  NoDup l.*1 → (a, b1) ∈ l → (a, b2) ∈ l → b1 = b2.
Proof.
  intros Hnd [i Hi]%list_elem_of_lookup [j Hj]%list_elem_of_lookup.
  assert (i = j) as ->.
  { apply (NoDup_lookup _ i j a Hnd); rewrite list_lookup_fmap;
      [by rewrite Hi | by rewrite Hj]. }
  congruence.
Qed.

Lemma table_rows_snoc (current_ordering : list (list string)) (group : list string) :
  table_rows (current_ordering ++ [group])
  = table_rows current_ordering
    ++ imap (λ halfcycle filename, (length current_ordering, halfcycle, filename)) group.
Proof.
  unfold table_rows. rewrite imap_app, join_app. simpl.
  by rewrite app_nil_r, Nat.add_0_r.
Qed.

Lemma NoDup_table_positions (current_ordering : list (list string)) :
  NoDup (table_rows current_ordering).*1.
Proof.
  induction current_ordering as [|group o IH] using rev_ind; [constructor|].
  rewrite table_rows_snoc, fmap_app. apply NoDup_app. split; [done|]. split.
  - intros [c s] Hin Hin'.
    apply list_elem_of_fmap in Hin as ([[c1 s1] f1] & [= <- <-] & Hin).
    apply elem_of_table_rows in Hin as (g & Hg%lookup_lt_Some & _).
    apply list_elem_of_fmap in Hin' as ([[c2 s2] f2] & [= -> ->] & Hin').
    apply elem_of_lookup_imap in Hin' as (i & f & [= -> -> ->] & _). lia.
  - apply NoDup_alt. intros i j [c s]. rewrite !list_lookup_fmap, !list_lookup_imap.
    destruct (group !! i), (group !! j); simpl; try done. by intros [= <- <-] [= <-].
Qed.

Lemma NoDup_table_files (current_ordering : list (list string)) :
  files_once current_ordering → NoDup (table_rows current_ordering).*2.
Proof.
  intros Honce. apply NoDup_alt. intros i j f. rewrite !list_lookup_fmap.
  destruct (table_rows current_ordering !! i) as [[[c1 s1] f1]|] eqn:Hi; [|done].
  destruct (table_rows current_ordering !! j) as [[[c2 s2] f2]|] eqn:Hj; [|done].
  simpl. intros [= ->] [= ->].
  destruct (Honce c1 s1 c2 s2 f) as [-> ->];
    [apply elem_of_table_rows; by eapply list_elem_of_lookup_2..|].
  apply (NoDup_lookup _ i j (c2, s2) (NoDup_table_positions current_ordering));
    rewrite list_lookup_fmap; [by rewrite Hi|by rewrite Hj].
Qed.

(** An ordering whose first half-cycle is split over two files. *)
Lemma files_once_sample :
  files_once [["a.DTA"; "b.DTA"]; ["c.DTA"]].
Proof.
  intros c1 s1 c2 s2 f (g1 & Hg1 & Hf1) (g2 & Hg2 & Hf2).
  destruct c1 as [|[|c1]]; simplify_eq/=;
    destruct s1 as [|[|s1]]; simplify_eq/=;
    destruct c2 as [|[|c2]]; simplify_eq/=;
    destruct s2 as [|[|s2]]; simplify_eq/=; done.
Defined.

Lemma max_cycle_snoc (ob : Dict.t string (nat * nat)) e :
  max_cycle (ob ++ [e]) = max_cycle ob `max` e.2.1.
Proof. unfold max_cycle. by rewrite foldl_snoc. Qed.

Lemma table_loop_records (state : string → option nat)
    (l : list (nat * nat * string)) :
  NoDup l.*2 →
  let t := foldl (table_step state) (0, []) l in
  t.2 = (λ row, (row.2, (number_input state ("Cycle_" ++ row.2)%string row.1.1,
                         number_input state ("Halfcycle_" ++ row.2)%string row.1.2)))
        <$> l ∧
  t.1 = max_cycle t.2.
Proof.
  induction l as [|[[c s] f] l IH] using rev_ind; intros Hnd t; [done|].
  rewrite fmap_app in Hnd. apply NoDup_app in Hnd as (Hnd & Hfresh & _).
  destruct (IH Hnd) as [Hbuf Hmax]. clear IH.
  unfold t. rewrite foldl_snoc. set (t0 := foldl (table_step state) (0, []) l) in *.
  assert (f ∉ Dict.keys t0.2) as Hf.
  { intros Hin. apply (Hfresh f); [|apply list_elem_of_here].
    rewrite Hbuf in Hin. unfold Dict.keys in Hin.
    by rewrite <-list_fmap_compose in Hin. }
  unfold table_step. rewrite (setitem_fresh t0.2) by done. rewrite fmap_app. simpl.
  case_decide; simpl.
  - rewrite setitem_last by done. rewrite max_cycle_snoc. simpl.
    by rewrite <-Hbuf, <-Hmax.
  - assert (number_input state ("Cycle_" ++ f)%string c = c ∧
            number_input state ("Halfcycle_" ++ f)%string s = s) as [Hc Hs].
    { split; apply dec_stable; intros Hne; apply H; [left|right]; done. }
    rewrite max_cycle_snoc. simpl. by rewrite Hc, Hs, <-Hbuf, <-Hmax.
Qed.

(** X3: when no file stands at two places of the current ordering, the
    table leaves in [ordering_buffer] one entry per row, in the order of
    the rows, holding for the file of the row the two numbers its inputs
    hold (the position of the row where the session holds nothing for an
    input); and [max_cycle] is the largest Halfcycle ID of that buffer. *)
Theorem table_records_inputs (state : string → option nat)
    (current_ordering : list (list string)) :
  files_once current_ordering →
  let t := ordering_table state current_ordering in
  t.2 = (λ row, (row.2, (number_input state ("Cycle_" ++ row.2)%string row.1.1,
                         number_input state ("Halfcycle_" ++ row.2)%string row.1.2)))
        <$> table_rows current_ordering ∧
  t.1 = max_cycle t.2.
Proof. intros Honce. by apply table_loop_records, NoDup_table_files. Qed.

Lemma table_records_inputs_witness :
  let state := λ key, if decide (key = "Cycle_c.DTA") then Some 0 else None in
  let t := ordering_table state [["a.DTA"; "b.DTA"]; ["c.DTA"]] in
  t.2 = (λ row, (row.2, (number_input state ("Cycle_" ++ row.2)%string row.1.1,
                         number_input state ("Halfcycle_" ++ row.2)%string row.1.2)))
        <$> table_rows [["a.DTA"; "b.DTA"]; ["c.DTA"]] ∧
  t.1 = max_cycle t.2.
Proof.
  intros state.
  apply (table_records_inputs state [["a.DTA"; "b.DTA"]; ["c.DTA"]]).
  apply files_once_sample.
Defined.

(** *** A table and the ordering it gives *)

Section round_trip.
Variable halfcycle_type : string → string.

Abbreviation is_charge := (FileManager.is_charge halfcycle_type).
Abbreviation validate := (FileManager.validate halfcycle_type).

(** The table of an ordering whose groups all hold a file, with no file
    at two places and one kind of file per group, validates to that same
    ordering when the session holds the defaults of the number inputs. *)
Lemma untouched_table (state : string → option nat)
    (current_ordering : list (list string)) :
  current_ordering ≠ [] →
  (∀ group, group ∈ current_ordering → group ≠ []) →
  files_once current_ordering →
  (∀ c s1 s2 f1 f2, placed current_ordering c s1 f1 →
     placed current_ordering c s2 f2 → is_charge f1 = is_charge f2) →
  untouched state current_ordering →
  let t := ordering_table state current_ordering in
  t.1 = max_cycle t.2 ∧ validate t.2 = Some (NewOrdering current_ordering).
Proof.
  intros Hne Hfilled Honce Htype Hstate t.
  destruct (table_loop_untouched state (table_rows current_ordering))
    as (Hkeys & Hmem & Hub & Hmax).
  { intros c s f Hin%elem_of_table_rows. by apply Hstate. }
  { intros c1 s1 c2 s2 f H1%elem_of_table_rows H2%elem_of_table_rows.
    by eapply Honce. }
  fold (ordering_table state current_ordering) in Hkeys, Hmem, Hub, Hmax.
  fold t in Hkeys, Hmem, Hub, Hmax. set (ob := t.2) in *.
  assert (∀ f c s, (f, (c, s)) ∈ ob ↔ placed current_ordering c s f) as Hplaced.
  { intros. by rewrite Hmem, elem_of_table_rows. }
  assert (∀ k, k ∈ cycles ob ↔ k < length current_ordering) as Hcycles.
  { intros k. rewrite elem_of_cycles. split.
    - intros [s Hs]. apply list_elem_of_fmap in Hs as ([f [c' s']] & [= -> ->] & Hin).
      apply Hplaced in Hin as (g & Hg & _). by eapply lookup_lt_Some.
    - intros [g Hg]%lookup_lt_is_Some_2.
      destruct g as [|f g'].
      { destruct (Hfilled []); [by eapply list_elem_of_lookup_2|done]. }
      exists 0. apply list_elem_of_fmap. exists (f, (k, 0)). split; [done|].
      apply Hplaced. by exists (f :: g'). }
  assert (NoDup ob.*2) as Hslots.
  { apply NoDup_fmap_2_strong; [|by eapply NoDup_fmap_1].
    intros [f1 [c1 s1]] [f2 [c2 s2]] (g1 & Hg1 & Hf1)%Hplaced (g2 & Hg2 & Hf2)%Hplaced.
    simpl. intros [= -> ->]. congruence. }
  destruct current_ordering as [|g0 rest] eqn:Hco; [done|]. rewrite <-Hco in *.
  assert (length current_ordering = S (length rest)) as Hlen by (by rewrite Hco).
  split.
  { apply Nat.le_antisymm.
    - destruct Hmax as [->|(s & f & Hin)]; [lia|].
      apply max_cycle_ge, elem_of_cycles. exists s.
      apply list_elem_of_fmap. exists (f, (t.1, s)). split; [done|]. by apply Hmem.
    - assert (max_cycle ob ∈ cycles ob) as Hin.
      { apply max_cycle_attained. intros Hnil.
        assert (0 ∈ cycles ob) as H0 by (apply Hcycles; lia).
        rewrite Hnil in H0. inversion H0. }
      apply elem_of_cycles in Hin as [s Hs].
      apply list_elem_of_fmap in Hs as ([f [c' s']] & [= <- <-] & Hin).
      apply Hmem in Hin. by eapply Hub. }
  destruct (validate_accepts_charge halfcycle_type ob (length rest))
    as (o & Hval & Holen & Hgroups); [| done | |].
  { intros k. rewrite Hcycles. lia. }
  { intros f1 f2 c s1 s2 H1%Hplaced H2%Hplaced. by eapply Htype. }
  rewrite Hval. do 2 f_equal. apply list_eq. intros c.
  destruct (decide (c ≤ length rest)) as [Hc|Hc].
  2: { rewrite !lookup_ge_None_2; [done|lia..]. }
  destruct (Hgroups c Hc) as (group & slots & -> & Hitems & Hsorted & Hall).
  destruct (lookup_lt_is_Some_2 current_ordering c) as [g Hg]; [lia|].
  rewrite Hg. f_equal.
  assert (slots = seq 0 (length g)) as ->.
  { apply sorted_slots_seq; [done|]. intros s. split.
    - intros [j Hj]%list_elem_of_lookup.
      destruct (Forall2_lookup_r _ _ _ _ _ Hitems Hj) as (f & _ & (g' & Hg' & Hf)%Hplaced).
      rewrite Hg in Hg'. injection Hg' as <-. by eapply lookup_lt_Some.
    - intros [f Hf]%lookup_lt_is_Some_2.
      assert ((f, (c, s)) ∈ ob) as Hin by (apply Hplaced; by exists g).
      apply Hall, list_elem_of_lookup in Hin as [j Hj].
      destruct (Forall2_lookup_l _ _ _ _ _ Hitems Hj) as (s' & Hs' & Hin'%Hplaced).
      destruct (Honce c s c s' f) as [_ ->]; [by exists g|done|].
      by eapply list_elem_of_lookup_2. }
  apply list_eq. intros j.
  destruct (group !! j) as [f|] eqn:Hj.
  - destruct (Forall2_lookup_l _ _ _ _ _ Hitems Hj) as (s' & Hs' & (g' & Hg' & Hf)%Hplaced).
    apply lookup_seq in Hs' as [-> _]. simpl in Hf. congruence.
  - symmetry. apply lookup_ge_None. apply lookup_ge_None in Hj.
    apply Forall2_length in Hitems. rewrite length_seq in Hitems. lia.
Qed.

Lemma validate_NewOrdering_inv ob new_ordering :
  validate ob = Some (NewOrdering new_ordering) →
  missing_indices ob = [] ∧ NoDup ob.*2 ∧ ¬ type_clash halfcycle_type ob.
Proof.
  destruct (validate_cascade halfcycle_type ob) as (rep & cbb & Hfiles & Hflag & ->).
  destruct (group_files_spec ob) as (st & Hst & Hgrp).
  rewrite Hfiles in Hst. injection Hst as <-.
  destruct (decide (missing_indices ob ≠ [])) as [Hm|Hm]; [done|].
  apply dec_stable in Hm. destruct rep; [done|].
  assert (NoDup ob.*2) as Hnd.
  { apply dec_stable. rewrite <-slot_repetition_NoDup, <-Hflag. done. }
  destruct (type_mismatch halfcycle_type cbb) eqn:Hmis; [done|]. intros _.
  split; [done|]. split; [done|]. intros Hclash.
  pose proof (type_clash_mismatch halfcycle_type ob (false, cbb) Hgrp Hnd Hclash) as Hbad.
  simpl in Hbad. congruence.
Qed.

(** What an accepted table gives: the groups of the table, none empty,
    every file of the table at exactly one place, in the group the table
    gives it and by ascending partial-file index. *)
Lemma new_ordering_shape ob new_ordering :
  validate ob = Some (NewOrdering new_ordering) → NoDup ob.*1 →
  length new_ordering = max_cycle ob + 1 ∧
  (∀ group, group ∈ new_ordering → group ≠ []) ∧
  files_once new_ordering ∧
  (∀ c s f, placed new_ordering c s f → ∃ slot, (f, (c, slot)) ∈ ob) ∧
  (∀ f c slot, (f, (c, slot)) ∈ ob → ∃ s, placed new_ordering c s f) ∧
  (∀ c s1 s2 f1 f2 slot1 slot2,
     placed new_ordering c s1 f1 → placed new_ordering c s2 f2 →
     (f1, (c, slot1)) ∈ ob → (f2, (c, slot2)) ∈ ob → s1 < s2 → slot1 < slot2) ∧
  (∀ c s1 s2 f1 f2, placed new_ordering c s1 f1 → placed new_ordering c s2 f2 →
     is_charge f1 = is_charge f2).
Proof.
  intros Hval Hkeys.
  destruct (validate_NewOrdering_inv ob new_ordering Hval) as (Hm & Hnd & Hclash).
  assert (∀ k, k ∈ cycles ob ↔ k ≤ max_cycle ob) as Hrange.
  { intros k. split; [apply max_cycle_ge|]. intros Hk.
    destruct (decide (k ∈ cycles ob)) as [|Hnotin]; [done|].
    assert (k ∈ missing_indices ob) as Hin by (by apply missing_indices_spec).
    rewrite Hm in Hin. inversion Hin. }
  assert (∀ f1 f2 c s1 s2, (f1, (c, s1)) ∈ ob → (f2, (c, s2)) ∈ ob →
            is_charge f1 = is_charge f2) as Htype.
  { intros f1 f2 c s1 s2 H1 H2.
    destruct (decide (is_charge f1 = is_charge f2)) as [|Hne]; [done|].
    destruct Hclash. by exists f1, f2, c, s1, s2. }
  destruct (validate_accepts_charge halfcycle_type ob (max_cycle ob) Hrange Hnd Htype)
    as (o & Hval' & Hlen & Hgroups).
  rewrite Hval in Hval'. injection Hval' as <-.
  assert (∀ c s f, placed new_ordering c s f →
            ∃ slots, StronglySorted lt slots ∧
              (∃ group, new_ordering !! c = Some group ∧
                 Forall2 (λ f s, (f, (c, s)) ∈ ob) group slots) ∧
              ∃ slot, slots !! s = Some slot ∧ (f, (c, slot)) ∈ ob) as Hslot.
  { intros c s f (g & Hg & Hf).
    destruct (Hgroups c) as (group & slots & Hgroup & Hitems & Hsorted & _).
    { apply lookup_lt_Some in Hg. lia. }
    rewrite Hg in Hgroup. injection Hgroup as <-.
    destruct (Forall2_lookup_l _ _ _ _ _ Hitems Hf) as (slot & Hslot & Hin).
    exists slots. split; [done|]. split; [by exists g|]. by exists slot. }
  assert (∀ c s1 s2 f1 f2 slot1 slot2,
            placed new_ordering c s1 f1 → placed new_ordering c s2 f2 →
            (f1, (c, slot1)) ∈ ob → (f2, (c, slot2)) ∈ ob →
            (s1 < s2 → slot1 < slot2) ∧ (slot1 = slot2 → s1 = s2)) as Horder.
  { intros c s1 s2 f1 f2 slot1 slot2 (g & Hg & Hf1) (g' & Hg' & Hf2) Hin1 Hin2.
    rewrite Hg in Hg'. injection Hg' as <-.
    destruct (Hgroups c) as (group & slots & Hgroup & Hitems & Hsorted & _).
    { apply lookup_lt_Some in Hg. lia. }
    rewrite Hg in Hgroup. injection Hgroup as <-.
    destruct (Forall2_lookup_l _ _ _ _ _ Hitems Hf1) as (slot1' & Hs1 & Hin1').
    destruct (Forall2_lookup_l _ _ _ _ _ Hitems Hf2) as (slot2' & Hs2 & Hin2').
    assert ((c, slot1') = (c, slot1)) as [= ->] by by eapply NoDup_fst_unique.
    assert ((c, slot2') = (c, slot2)) as [= ->] by by eapply NoDup_fst_unique.
    split.
    - intros Hlt. by eapply (sorted_lookup_lt slots s1 s2).
    - intros ->. apply (NoDup_lookup slots s1 s2 slot2); [|done..].
      by apply CyclesPlotterFacts.StronglySorted_lt_NoDup. }
  split; [done|]. split; [|split; [|split; [|split; [|split]]]].
  - intros group [c Hc]%list_elem_of_lookup ->.
    assert (c ∈ cycles ob) as [slot Hin]%elem_of_cycles.
    { apply Hrange. apply lookup_lt_Some in Hc. lia. }
    apply list_elem_of_fmap in Hin as ([f [c' s']] & [= <- <-] & Hin).
    destruct (Hgroups c) as (group & slots & Hgroup & _ & _ & Hall).
    { apply lookup_lt_Some in Hc. lia. }
    rewrite Hc in Hgroup. injection Hgroup as <-.
    apply Hall in Hin. inversion Hin.
  - intros c1 s1 c2 s2 f H1 H2.
    destruct (Hslot _ _ _ H1) as (_ & _ & _ & slot1 & _ & Hin1).
    destruct (Hslot _ _ _ H2) as (_ & _ & _ & slot2 & _ & Hin2).
    assert ((c1, slot1) = (c2, slot2)) as [= -> ->] by by eapply NoDup_fst_unique.
    split; [done|]. by apply (Horder c2 s1 s2 f f slot2 slot2).
  - intros c s f H. destruct (Hslot _ _ _ H) as (_ & _ & _ & slot & _ & Hin). eauto.
  - intros f c slot Hin.
    assert (c ≤ max_cycle ob) as Hc.
    { apply max_cycle_ge, elem_of_cycles. exists slot.
      apply list_elem_of_fmap. by exists (f, (c, slot)). }
    destruct (Hgroups c Hc) as (group & slots & Hgroup & _ & _ & Hall).
    apply Hall, list_elem_of_lookup in Hin as [s Hs]. exists s. by exists group.
  - intros c s1 s2 f1 f2 slot1 slot2 H1 H2 Hin1 Hin2.
    by apply (Horder c s1 s2 f1 f2 slot1 slot2).
  - intros c s1 s2 f1 f2 H1 H2.
    destruct (Hslot _ _ _ H1) as (_ & _ & _ & slot1 & _ & Hin1).
    destruct (Hslot _ _ _ H2) as (_ & _ & _ & slot2 & _ & Hin2).
    by eapply Htype.
Qed.
End round_trip.

Section ordering_pass.
Context {ColorRGB : Type}.
Variable halfcycle_type : string → string.
Variable join_halfcycles : list string → Core.HalfCycle.
Variable is_hidden : option Core.HalfCycle → option Core.HalfCycle → bool.

Abbreviation is_charge := (FileManager.is_charge halfcycle_type).
Abbreviation validate := (FileManager.validate halfcycle_type).
Abbreviation ordering_manipulation :=
  (ordering_manipulation halfcycle_type join_halfcycles is_hidden).

(** X4: a pass over the table of an experiment whose number inputs hold
    their defaults changes nothing: when every group of the current
    ordering holds a file, no file stands at two places and no group mixes
    charge files with others, the table validates to the current ordering
    itself, so that nothing is assigned and no rerun is asked. The
    [max_cycle] of the loop is the largest Halfcycle ID of the buffer. *)
Theorem untouched_table_is_quiet (experiment : Core.Experiment ColorRGB)
    (state : string → option nat) :
  Core.ordering experiment ≠ [] →
  (∀ group, group ∈ Core.ordering experiment → group ≠ []) →
  files_once (Core.ordering experiment) →
  (∀ c s1 s2 f1 f2, placed (Core.ordering experiment) c s1 f1 →
     placed (Core.ordering experiment) c s2 f2 → is_charge f1 = is_charge f2) →
  untouched state (Core.ordering experiment) →
  let t := ordering_table state (Core.ordering experiment) in
  t.1 = max_cycle t.2 ∧
  validate t.2 = Some (NewOrdering (Core.ordering experiment)) ∧
  ordering_manipulation experiment t.2 = Some (experiment, false).
Proof.
  intros Hne Hfilled Honce Htype Hstate t.
  destruct (untouched_table halfcycle_type state _ Hne Hfilled Honce Htype Hstate)
    as [Hmax Hval].
  fold t in Hmax, Hval. split; [done|]. split; [done|].
  unfold FileManager.ordering_manipulation. rewrite Hval. simpl.
  by rewrite decide_False by (intros H; by apply H).
Qed.

(** X5: an accepted table loses no file and invents none: the new
    ordering has one group per Halfcycle ID up to the largest, none of
    them empty; every file of the table stands at exactly one place of it,
    in the group the table gives it; and inside a group the files follow
    their partial-file indices. *)
Theorem accepted_ordering_keeps_files ob new_ordering :
  validate ob = Some (NewOrdering new_ordering) →
  NoDup (Dict.keys ob) →
  length new_ordering = max_cycle ob + 1 ∧
  (∀ group, group ∈ new_ordering → group ≠ []) ∧
  files_once new_ordering ∧
  (∀ f c, (∃ s, placed new_ordering c s f) ↔ ∃ slot, (f, (c, slot)) ∈ ob) ∧
  (∀ c s1 s2 f1 f2 slot1 slot2,
     placed new_ordering c s1 f1 → placed new_ordering c s2 f2 →
     (f1, (c, slot1)) ∈ ob → (f2, (c, slot2)) ∈ ob → s1 < s2 → slot1 < slot2).
Proof.
  intros Hval Hkeys.
  destruct (new_ordering_shape halfcycle_type ob new_ordering Hval Hkeys)
    as (Hlen & Hfilled & Honce & Hfrom & Hto & Horder & _).
  split; [done|]. split; [done|]. split; [done|]. split; [|done].
  intros f c. split.
  - intros [s Hs]. by eapply Hfrom.
  - intros [slot Hin]. by eapply Hto.
Qed.

(** X6: after an accepted table was committed, the next pass is quiet:
    the table made from the new ordering, with the number inputs at their
    defaults, validates to that same ordering, so that the experiment is
    not assigned again and no further rerun is asked. *)
Theorem committed_ordering_is_stable (experiment : Core.Experiment ColorRGB)
    ob new_ordering (state : string → option nat) :
  validate ob = Some (NewOrdering new_ordering) →
  NoDup (Dict.keys ob) →
  untouched state new_ordering →
  let committed := set_ordering halfcycle_type join_halfcycles is_hidden
                     experiment new_ordering in
  let t := ordering_table state (Core.ordering committed) in
  validate t.2 = Some (NewOrdering new_ordering) ∧
  ordering_manipulation committed t.2 = Some (committed, false).
Proof.
  intros Hval Hkeys Hstate committed t.
  destruct (new_ordering_shape halfcycle_type ob new_ordering Hval Hkeys)
    as (Hlen & Hfilled & Honce & _ & _ & _ & Htype).
  assert (new_ordering ≠ []) as Hne.
  { intros ->. simpl in Hlen. lia. }
  destruct (untouched_table halfcycle_type state _ Hne Hfilled Honce Htype Hstate)
    as [_ Hquiet].
  change (Core.ordering committed) with new_ordering in t.
  fold t in Hquiet. split; [done|].
  unfold FileManager.ordering_manipulation. rewrite Hquiet. simpl.
  by rewrite decide_False by (intros H; by apply H).
Qed.
End ordering_pass.

Lemma untouched_table_is_quiet_witness :
  let experiment := set_ordering (λ _, "charge")
                      (λ _, Core.Build_HalfCycle "charge" [] [] [] [] [] [])
                      (λ _ _, false) gamry_experiment
                      [["a.DTA"; "b.DTA"]; ["c.DTA"]] in
  let t := ordering_table (λ _, None) (Core.ordering experiment) in
  t.1 = max_cycle t.2 ∧
  FileManager.validate (λ _, "charge") t.2
    = Some (NewOrdering (Core.ordering experiment)) ∧
  FileManager.ordering_manipulation (λ _, "charge")
    (λ _, Core.Build_HalfCycle "charge" [] [] [] [] [] []) (λ _ _, false)
    experiment t.2 = Some (experiment, false).
Proof.
  intros experiment.
  apply (untouched_table_is_quiet (λ _, "charge")
           (λ _, Core.Build_HalfCycle "charge" [] [] [] [] [] []) (λ _ _, false)
           experiment (λ _, None)).
  - discriminate.
  - intros group Hin ->. apply list_elem_of_In in Hin. simpl in Hin.
    destruct Hin as [H|[H|[]]]; discriminate H.
  - apply files_once_sample.
  - reflexivity.
  - intros c s f _. split; reflexivity.
Defined.

Lemma accepted_ordering_keeps_files_witness :
  length [["a.DTA"; "b.DTA"]; ["c.DTA"]] = max_cycle two_groups + 1 ∧
  (∀ group, group ∈ [["a.DTA"; "b.DTA"]; ["c.DTA"]] → group ≠ []) ∧
  files_once [["a.DTA"; "b.DTA"]; ["c.DTA"]] ∧
  (∀ f c, (∃ s, placed [["a.DTA"; "b.DTA"]; ["c.DTA"]] c s f)
          ↔ ∃ slot, (f, (c, slot)) ∈ two_groups) ∧
  (∀ c s1 s2 f1 f2 slot1 slot2,
     placed [["a.DTA"; "b.DTA"]; ["c.DTA"]] c s1 f1 →
     placed [["a.DTA"; "b.DTA"]; ["c.DTA"]] c s2 f2 →
     (f1, (c, slot1)) ∈ two_groups → (f2, (c, slot2)) ∈ two_groups →
     s1 < s2 → slot1 < slot2).
Proof.
  apply (accepted_ordering_keeps_files (λ _, "charge") two_groups).
  - reflexivity.
  - apply (bool_decide_unpack _). vm_compute. exact I.
Defined.

Lemma committed_ordering_is_stable_witness :
  let committed := set_ordering (λ _, "charge")
                     (λ _, Core.Build_HalfCycle "charge" [] [] [] [] [] [])
                     (λ _ _, false) gamry_experiment
                     [["a.DTA"; "b.DTA"]; ["c.DTA"]] in
  let t := ordering_table (λ _, None) (Core.ordering committed) in
  FileManager.validate (λ _, "charge") t.2
    = Some (NewOrdering [["a.DTA"; "b.DTA"]; ["c.DTA"]]) ∧
  FileManager.ordering_manipulation (λ _, "charge")
    (λ _, Core.Build_HalfCycle "charge" [] [] [] [] [] []) (λ _ _, false)
    committed t.2 = Some (committed, false).
Proof.
  apply (committed_ordering_is_stable (λ _, "charge")
           (λ _, Core.Build_HalfCycle "charge" [] [] [] [] [] []) (λ _ _, false)
           gamry_experiment two_groups [["a.DTA"; "b.DTA"]; ["c.DTA"]] (λ _, None)).
  - reflexivity.
  - apply (bool_decide_unpack _). vm_compute. exact I.
  - intros c s f _. split; reflexivity.
Defined.

Lemma type_clash_reported_witness :
  FileManager.validate (λ f, if decide (f = "b.DTA") then "discharge" else "charge")
    [("a.DTA", (0, 0)); ("b.DTA", (0, 1))] = Some HalfcycleTypeMismatch.
Proof.
  apply (type_clash_reported
           (λ f, if decide (f = "b.DTA") then "discharge" else "charge")
           [("a.DTA", (0, 0)); ("b.DTA", (0, 1))]).
  - reflexivity.
  - rewrite slot_repetition_NoDup. intros Hdup. apply Hdup.
    apply (bool_decide_unpack _). vm_compute. exact I.
  - exists "a.DTA", "b.DTA", 0, 0, 1.
    split; [apply list_elem_of_here|].
    split; [apply list_elem_of_further, list_elem_of_here|]. discriminate.
Defined.

(** *** The skipped files of an upload *)

Section upload_and_inspector.
Context {ColorRGB : Type}.

(** X7: the files of an upload that the upload form reports as skipped
    are its files that the inspector marks SKIPPED, in the order of the
    upload; this needs, for the length test of the GAMRY branch, that the
    parsed files are files of the upload. *)
Theorem skipped_files_are_inspector_skipped (new_experiment : Core.Experiment ColorRGB)
    (skipped : list string) :
  NoDup (Core.bytestreams new_experiment) →
  NoDup (Core.halfcycles new_experiment) →
  Core.halfcycles new_experiment ⊆ Core.bytestreams new_experiment →
  skipped_files_of new_experiment = Some skipped →
  skipped = filter (λ filename, file_parsed new_experiment filename = false)
                   (Core.bytestreams new_experiment).
Proof.
  intros Hbs Hhs Hsub. unfold skipped_files_of, file_parsed.
  destruct (decide (Core.instrument new_experiment = "GAMRY")) as [Hg|Hg].
  - rewrite (bool_decide_eq_true_2 _ Hg). simpl.
    assert (∀ l : list string,
              filter (λ filename, filename ∉ Core.halfcycles new_experiment) l
              = filter (λ filename,
                  (if bool_decide (filename ∈ Core.halfcycles new_experiment)
                   then true
                   else if bool_decide (Core.instrument new_experiment = "BIOLOGIC")
                           && existsb (str_in filename) (Core.halfcycles new_experiment)
                        then true else false) = false) l) as Hfilter.
    { intros l. apply list_filter_iff. intros f. rewrite Hg. simpl.
      case_bool_decide; split; done. }
    destruct (decide (length (Core.bytestreams new_experiment)
                      ≠ length (Core.halfcycles new_experiment))) as [Hlen|Hlen];
      intros [= <-]; [apply Hfilter|].
    rewrite <-Hfilter. symmetry. apply ListFacts.filter_none. intros f Hf Hnotin.
    apply dec_stable in Hlen.
    assert (Core.halfcycles new_experiment ≡ₚ Core.bytestreams new_experiment) as Hperm.
    { apply submseteq_length_Permutation; [|lia]. by apply NoDup_submseteq. }
    apply Hnotin. by rewrite Hperm.
  - rewrite (bool_decide_eq_false_2 _ Hg). simpl.
    destruct (decide (Core.instrument new_experiment = "BIOLOGIC")) as [Hb|Hb]; [|done].
    rewrite (bool_decide_eq_true_2 _ Hb). simpl. intros [= <-].
    apply list_filter_iff. intros f.
    by destruct (existsb (str_in f) (Core.halfcycles new_experiment)).
Qed.
End upload_and_inspector.

Lemma skipped_files_are_inspector_skipped_witness :
  let new_experiment : Core.Experiment unit :=
    {| Core.name := "exp"; Core.instrument := "GAMRY";
       Core.bytestreams := ["a.DTA"; "b.DTA"]; Core.halfcycles := ["a.DTA"];
       Core.ordering := [["a.DTA"]]; Core._cycles := [];
       Core._skipped_files := 0; Core.volume := None; Core.area := None;
       Core.color := tt |} in
  ["b.DTA"] = filter (λ filename, file_parsed new_experiment filename = false)
                     (Core.bytestreams new_experiment).
Proof.
  intros new_experiment.
  apply (skipped_files_are_inspector_skipped new_experiment ["b.DTA"]).
  - apply (bool_decide_unpack _). vm_compute. exact I.
  - apply (bool_decide_unpack _). vm_compute. exact I.
  - intros f Hf. apply list_elem_of_singleton in Hf as ->. apply list_elem_of_here.
  - reflexivity.
Defined.

(** *** The selection of the files to remove *)

(** X8: the selection list of the file table is the list of the checked
    files, in the order of the table: the [del selection_list[filename]]
    of the loop, a [TypeError] on a list, is never run. *)
Theorem selection_never_deletes (checked : string → bool) (bytestreams : list string) :
  selected_files checked bytestreams
  = Some (filter (λ filename, checked filename = true) bytestreams).
Proof.
  unfold selected_files.
  induction bytestreams as [|filename l IH] using rev_ind; [done|].
  rewrite foldl_snoc, IH, filter_app. simpl.
  destruct (checked filename) eqn:Hc.
  - by rewrite filter_cons_True by done.
  - rewrite filter_cons_False by (by rewrite Hc). rewrite app_nil_r.
    rewrite bool_decide_eq_false_2; [done|].
    intros [Hin _]%list_elem_of_filter. congruence.
Qed.

(** *** The dump of the session *)

Lemma dump_file_inj (i j : nat) : dump_file i = dump_file j → i = j.
Proof.
  intros H. unfold dump_file in H.
  apply (inj (String.app _)) in H. apply string_app_inj_r in H.
  by apply (inj pretty).
Qed.

Lemma find_dump_index_spec (files : list string) (fuel dump_index i : nat) :
  find_dump_index files fuel dump_index = Some i →
  dump_index ≤ i ∧ (dump_file i ∉ files) ∧
  ∀ j, dump_index ≤ j → j < i → dump_file j ∈ files.
Proof.
  revert dump_index. induction fuel as [|fuel IH]; intros dump_index; [done|]. simpl.
  case_bool_decide as Hin.
  - intros Hfind. apply IH in Hfind as (Hle & Hfree & Htaken).
    split; [lia|]. split; [done|].
    intros j Hj Hlt. destruct (decide (j = dump_index)) as [->|]; [done|].
    apply Htaken; lia.
  - intros [= <-]. split; [done|]. split; [done|]. intros. lia.
Qed.

Lemma find_dump_index_None (files : list string) (fuel dump_index : nat) :
  find_dump_index files fuel dump_index = None →
  ∀ j, dump_index ≤ j → j < dump_index + fuel → dump_file j ∈ files.
Proof.
  revert dump_index. induction fuel as [|fuel IH]; intros dump_index; [intros; lia|].
  simpl. case_bool_decide as Hin; [|done].
  intros Hnone j Hj Hlt. destruct (decide (j = dump_index)) as [->|]; [done|].
  apply (IH _ Hnone); lia.
Qed.

Lemma taken_indices_bound (files : list string) (n : nat) :
  (∀ j, j < n → dump_file j ∈ files) → n ≤ length files.
Proof.
  intros Htaken.
  assert (length (dump_file <$> seq 0 n) = n) as <-
    by (by rewrite length_fmap, length_seq).
  apply submseteq_length, NoDup_submseteq.
  - apply NoDup_fmap_2_strong; [|apply NoDup_seq]. intros i j _ _. apply dump_file_inj.
  - intros f (j & -> & Hj%elem_of_seq)%list_elem_of_fmap. apply Htaken. lia.
Qed.

(** X9: the dump after an unexpected exception never overwrites a file:
    the loop stops at the first index whose dump file is not in the
    directory, after at most as many steps as the directory has files, and
    the directory gets that one file more. *)
Theorem crash_dump_keeps_older_dumps (files : list string) (fuel : nat) :
  length files < fuel →
  ∃ dump_index,
    crash_dump files fuel = Some (files ++ [dump_file dump_index]) ∧
    (dump_file dump_index ∉ files) ∧
    (∀ j, j < dump_index → dump_file j ∈ files) ∧
    dump_index ≤ length files.
Proof.
  intros Hfuel. unfold crash_dump.
  destruct (find_dump_index files fuel 0) as [i|] eqn:Hfind.
  - apply find_dump_index_spec in Hfind as (_ & Hfree & Htaken).
    exists i. split; [done|]. split; [done|].
    assert (∀ j, j < i → dump_file j ∈ files) as Hall by (intros; apply Htaken; lia).
    split; [done|]. by apply taken_indices_bound.
  - pose proof (find_dump_index_None _ _ _ Hfind) as Htaken.
    assert (fuel ≤ length files); [|lia].
    apply taken_indices_bound. intros. apply Htaken; lia.
Qed.

Lemma crash_dump_keeps_older_dumps_witness :
  ∃ dump_index,
    crash_dump ["./GES_echem_gui_dump_0.pickle"; "./notes.txt"] 3
      = Some (["./GES_echem_gui_dump_0.pickle"; "./notes.txt"] ++ [dump_file dump_index]) ∧
    (dump_file dump_index ∉ ["./GES_echem_gui_dump_0.pickle"; "./notes.txt"]) ∧
    (∀ j, j < dump_index →
       dump_file j ∈ ["./GES_echem_gui_dump_0.pickle"; "./notes.txt"]) ∧
    dump_index ≤ length ["./GES_echem_gui_dump_0.pickle"; "./notes.txt"].
Proof.
  apply (crash_dump_keeps_older_dumps
           ["./GES_echem_gui_dump_0.pickle"; "./notes.txt"] 3).
  simpl. lia.
Defined.

End FileManagerProperties.

(** ** More about the cycles plotter page *)

Module CyclesPlotterProperties.
Import Core Dict DictFacts DictProperties StringFacts CyclesPlotter CyclesPlotterFacts.

Lemma str_index_Return (l : list string) x i :
  str_index l x = Return i ↔ l !! i = Some x ∧ ∀ j, j < i → l !! j ≠ Some x.
Proof.
  unfold str_index. split.
  - destruct (list_find (λ y, y = x) l) as [[i' y]|] eqn:Hfind; [|done].
    intros [= <-]. apply list_find_Some in Hfind as (Hi & -> & Hbefore).
    split; [done|]. intros j Hj Hl. by apply (Hbefore j x).
  - intros [Hi Hbefore].
    assert (list_find (λ y, y = x) l = Some (i, x)) as ->; [|done].
    apply list_find_Some. split; [done|]. split; [done|].
    intros j y Hj Hlt ->. by apply (Hbefore j).
Qed.

Lemma str_index_elem (l : list string) x :
  x ∈ l → ∃ i, str_index l x = Return i.
Proof.
  intros Hin. unfold str_index.
  destruct (list_find (λ y, y = x) l) as [[i y]|] eqn:Hfind; [by eexists|].
  apply list_find_None in Hfind. eapply Forall_forall in Hfind; [|done]. done.
Qed.

(** *** The series editor *)

(** X10: the series editor finds the series to work on by its label, and
    takes the first series of the buffer with that label: for the label of
    the series at position [i] it gets a position not after [i], and gets
    [i] itself exactly when no earlier series has the same label. *)
Theorem editor_takes_first_label (selected_series : list SingleCycleSeries)
    (i : nat) (series : SingleCycleSeries) :
  selected_series !! i = Some series →
  ∃ position current_series,
    series_position selected_series (label series) = Return position ∧
    selected_series !! position = Some current_series ∧
    label current_series = label series ∧
    position ≤ i ∧
    (∀ j other, j < position → selected_series !! j = Some other →
       label other ≠ label series) ∧
    (position = i ↔
     ∀ j other, j < i → selected_series !! j = Some other →
       label other ≠ label series).
Proof.
  intros Hi. unfold series_position.
  destruct (str_index_elem (label <$> selected_series) (label series)) as [pos Hpos].
  { apply list_elem_of_fmap. exists series. split; [done|].
    by eapply list_elem_of_lookup_2. }
  pose proof Hpos as [Hat Hbefore]%str_index_Return.
  rewrite list_lookup_fmap in Hat.
  destruct (selected_series !! pos) as [current|] eqn:Hcur; [|done].
  injection Hat as Hlabel.
  assert (∀ j other, j < pos → selected_series !! j = Some other →
            label other ≠ label series) as Hfirst.
  { intros j other Hj Hother Heq. apply (Hbefore j Hj).
    by rewrite list_lookup_fmap, Hother, <-Heq. }
  assert (pos ≤ i) as Hle.
  { destruct (decide (pos ≤ i)) as [|Hgt]; [done|].
    destruct (Hfirst i series); [lia|done..]. }
  exists pos, current. split; [done|]. split; [done|]. split; [done|].
  split; [done|]. split; [done|]. split.
  - by intros <-.
  - intros Hnone. destruct (decide (pos = i)) as [|Hne]; [done|].
    destruct (Hnone pos current); [lia|done..].
Qed.

Lemma editor_takes_first_label_witness :
  ∃ position current_series,
    series_position (Page2_ComparisonPlot sample_session) "A [1]" = Return position ∧
    Page2_ComparisonPlot sample_session !! position = Some current_series ∧
    label current_series = "A [1]" ∧
    position ≤ 2 ∧
    (∀ j other, j < position → Page2_ComparisonPlot sample_session !! j = Some other →
       label other ≠ "A [1]") ∧
    (position = 2 ↔
     ∀ j other, j < 2 → Page2_ComparisonPlot sample_session !! j = Some other →
       label other ≠ "A [1]").
Proof.
  apply (editor_takes_first_label (Page2_ComparisonPlot sample_session) 2
           {| label := "A [1]"; experiment_name := "A"; cycle_id := 1;
              hex_color := "#00CC96"; color_from_base := false |}).
  reflexivity.
Defined.

(** X11: the "Apply" button of the series editor changes the series at the
    position of the editor and no other; the experiment and the cycle of
    every series stay what they were; and with the three widgets left at
    what they first show, the buffer stays as it is. *)
Theorem editor_apply_effect (selected_series : list SingleCycleSeries)
    (series_position : nat) (current_series : SingleCycleSeries)
    (new_label new_color : string) (override_color : bool) :
  selected_series !! series_position = Some current_series →
  let r := series_apply series_position new_label new_color override_color
             selected_series in
  r.2 = Return tt ∧
  r.1 !! series_position
    = Some (edit_series new_label new_color override_color current_series) ∧
  (∀ j, j ≠ series_position → r.1 !! j = selected_series !! j) ∧
  pair_of <$> r.1 = pair_of <$> selected_series ∧
  ((new_label, new_color, override_color) = editor_defaults current_series →
   r.1 = selected_series).
Proof.
  intros Hcur r. unfold r, series_apply. simpl.
  split; [done|]. split; [by rewrite list_lookup_alter_eq, Hcur|].
  split; [intros j Hj; by rewrite list_lookup_alter_ne|].
  split.
  - rewrite (list_fmap_alter pair_of _ id), list_alter_id; [done..|].
    by apply Forall_forall.
  - intros [= -> -> ->]. apply list_eq. intros j.
    destruct (decide (j = series_position)) as [->|Hne];
      [|by rewrite list_lookup_alter_ne].
    rewrite list_lookup_alter_eq, Hcur. simpl. f_equal.
    destruct current_series as [l e c h []]; reflexivity.
Qed.

Lemma editor_apply_effect_witness :
  let r := series_apply 0 "first cycle" "#000000" true edited_buffer in
  r.2 = Return tt ∧
  r.1 !! 0
    = Some (edit_series "first cycle" "#000000" true
              {| label := "first cycle"; experiment_name := "A"; cycle_id := 0;
                 hex_color := "#000000"; color_from_base := false |}) ∧
  (∀ j, j ≠ 0 → r.1 !! j = edited_buffer !! j) ∧
  pair_of <$> r.1 = pair_of <$> edited_buffer ∧
  (("first cycle", "#000000", true)
     = editor_defaults
         {| label := "first cycle"; experiment_name := "A"; cycle_id := 0;
            hex_color := "#000000"; color_from_base := false |} →
   r.1 = edited_buffer).
Proof.
  apply (editor_apply_effect edited_buffer 0
           {| label := "first cycle"; experiment_name := "A"; cycle_id := 0;
              hex_color := "#000000"; color_from_base := false |}).
  reflexivity.
Defined.

(** *** The axis selectors *)

Lemma sub_HALFCYCLE_SERIES_nonempty (x_axis : string) :
  ∃ first, sub_HALFCYCLE_SERIES x_axis !! 0 = Some first.
Proof.
  unfold sub_HALFCYCLE_SERIES, HALFCYCLE_SERIES.
  destruct (decide (x_axis = "time")) as [->|Hne].
  - by eexists.
  - rewrite filter_cons_True by done. by eexists.
Qed.

(** X12: the index handed to the select box of the y axis is always the
    position of one of the series on offer, so that the box never fails;
    the series on offer are the metric series other than the x axis; and
    the stored y axis stays selected as long as it is still on offer. The
    index of the x axis is the position of the stored x axis. *)
Theorem axis_selectors_defaults (x_axis : string) (y_axis : option string) :
  (∀ y, y ∈ sub_HALFCYCLE_SERIES x_axis ↔ y ∈ HALFCYCLE_SERIES ∧ y ≠ x_axis) ∧
  (∃ i shown,
     y_axis_index x_axis y_axis = Return i ∧
     sub_HALFCYCLE_SERIES x_axis !! i = Some shown ∧
     shown ≠ x_axis ∧
     (∀ y, y_axis = Some y → y ∈ sub_HALFCYCLE_SERIES x_axis → shown = y)) ∧
  (x_axis ∈ HALFCYCLE_SERIES →
   ∃ i, x_axis_index (Some x_axis) = Return i ∧ HALFCYCLE_SERIES !! i = Some x_axis).
Proof.
  assert (∀ y, y ∈ sub_HALFCYCLE_SERIES x_axis ↔ y ∈ HALFCYCLE_SERIES ∧ y ≠ x_axis)
    as Hsub.
  { intros y. unfold sub_HALFCYCLE_SERIES. rewrite list_elem_of_filter. tauto. }
  assert (∀ y, y ∈ HALFCYCLE_SERIES → y ≠ "") as Hname.
  { intros y Hy ->. apply list_elem_of_In in Hy. simpl in Hy.
    repeat (destruct Hy as [Hy|Hy]; [discriminate Hy|]). done. }
  split; [done|]. split.
  - destruct (sub_HALFCYCLE_SERIES_nonempty x_axis) as [first Hfirst].
    assert (first ≠ x_axis) as Hne.
    { apply (Hsub first). by eapply list_elem_of_lookup_2. }
    unfold y_axis_index. destruct y_axis as [y|].
    2: { exists 0, first. by repeat split. }
    destruct (decide (y ∈ sub_HALFCYCLE_SERIES x_axis)) as [Hin|Hout].
    + rewrite (bool_decide_eq_true_2 (y ≠ "")) by (apply Hname, Hsub, Hin).
      rewrite (bool_decide_eq_true_2 _ Hin). simpl.
      destruct (str_index_elem _ _ Hin) as [i Hi]. exists i, y.
      split; [done|]. apply str_index_Return in Hi as [Hi _].
      split; [done|]. split; [by apply Hsub|]. by intros ? [= ->].
    + rewrite (bool_decide_eq_false_2 _ Hout), andb_false_r.
      exists 0, first. split; [done|]. split; [done|]. split; [done|].
      by intros ? [= ->].
  - intros Hx. unfold x_axis_index. rewrite decide_True by by apply Hname.
    destruct (str_index_elem _ _ Hx) as [i Hi]. exists i. split; [done|].
    by apply str_index_Return in Hi as [Hi _].
Qed.

(** *** The manual selector *)

Lemma series_label_inj (label_prefix : string) (n1 n2 : nat) :
  series_label label_prefix n1 = series_label label_prefix n2 → n1 = n2.
Proof.
  unfold series_label. intros H.
  apply (inj (String.app _)) in H. apply (inj (String.app _)) in H.
  apply string_app_inj_r in H. by apply (inj pretty).
Qed.

Lemma selected_cycles_items (label_prefix : string) (picked : list nat) :
  NoDup picked →
  foldl (λ (d : Dict.t string (option nat)) n,
           Dict.setitem d (series_label label_prefix n) (Some n)) [] picked
  = (λ n, (series_label label_prefix n, Some n)) <$> picked.
Proof.
  induction picked as [|n picked IH] using rev_ind; intros Hnd; [done|].
  apply NoDup_app in Hnd as (Hnd & Hfresh & _).
  rewrite foldl_snoc, IH, fmap_app by done. apply setitem_fresh.
  unfold Dict.keys. rewrite <-list_fmap_compose.
  intros (n' & Heq%series_label_inj & Hin)%list_elem_of_fmap. subst n'.
  apply (Hfresh n Hin), list_elem_of_here.
Qed.

Section manual.
Variable get_plotly_color : nat → string.

Abbreviation stride_series := (stride_series get_plotly_color).
Abbreviation manual_body := (manual_body get_plotly_color).
Abbreviation manual_add_multiple := (manual_add_multiple get_plotly_color).

Lemma manual_body_step name cycle_numbers use_base_color lbl n
    (b : list SingleCycleSeries) :
  n ∈ cycle_numbers →
  manual_body name cycle_numbers use_base_color (lbl, Some n) b =
  (b ++ [{| label := lbl; experiment_name := name; cycle_id := n;
            hex_color := get_plotly_color (length b);
            color_from_base := use_base_color |}],
   Return tt).
Proof.
  intros [i Hi]%list_index_elem.
  unfold CyclesPlotter.manual_body, bind, lift, read, append. simpl.
  by rewrite Hi.
Qed.

Lemma manual_loop_exact name label_prefix cycle_numbers use_base_color
    (l : list nat) (b : list SingleCycleSeries) :
  (∀ n, n ∈ l → n ∈ cycle_numbers) →
  for_each ((λ n, (series_label label_prefix n, Some n)) <$> l)
    (manual_body name cycle_numbers use_base_color) b =
  (b ++ imap (λ i n, stride_series name label_prefix use_base_color (length b + i) n) l,
   Return tt).
Proof.
  revert b. induction l as [|n l IH]; intros b Hnum.
  - simpl. by rewrite app_nil_r.
  - rewrite fmap_cons.
    change (for_each (?x :: ?l') ?body) with (bind (body x) (λ _, for_each l' body)).
    unfold bind at 1.
    rewrite manual_body_step by apply Hnum, list_elem_of_here.
    rewrite IH by (intros; by apply Hnum, list_elem_of_further).
    rewrite <-app_assoc. simpl. rewrite Nat.add_0_r. do 3 f_equal.
    apply imap_ext. intros j x _. simpl. rewrite length_app. simpl.
    f_equal. lia.
Qed.

Lemma exclude_app (b1 b2 : list SingleCycleSeries) name :
  exclude (b1 ++ b2) name = exclude b1 name ++ exclude b2 name.
Proof. unfold exclude. by rewrite filter_app, fmap_app. Qed.

Lemma exclude_new name label_prefix use_base_color k (l : list nat) :
  exclude (imap (λ i n, stride_series name label_prefix use_base_color (k + i) n) l)
    name = l.
Proof.
  revert k. induction l as [|n l IH]; intros k; [done|].
  unfold exclude in *. simpl. rewrite filter_cons_True by done. simpl. f_equal.
  rewrite <-(IH (S k)) at 2. do 2 f_equal. apply imap_ext. intros i x _. simpl.
  f_equal. lia.
Qed.

(** X13: the "Add" button of the multiple selection appends one series
    for each picked cycle, in the order of the pick, labelled with the
    prefix and the cycle and coloured by the position it takes; the
    [cycle_numbers.index(n)] of its loop never fails. Afterwards the
    selector offers what it offered before without the picked cycles. *)
Theorem manual_add_appends name label_prefix use_base_color
    (picked : list nat) (b : list SingleCycleSeries) :
  NoDup picked →
  let r := manual_add_multiple name label_prefix use_base_color picked b in
  r = (b ++ imap (λ i n, stride_series name label_prefix use_base_color
                           (length b + i) n) picked,
       Return tt) ∧
  ∀ cycle_numbers,
    manual_options r.1 name cycle_numbers
    = filter (λ n, n ∉ picked) (manual_options b name cycle_numbers).
Proof.
  intros Hnd r.
  assert (r = (b ++ imap (λ i n, stride_series name label_prefix use_base_color
                                   (length b + i) n) picked,
               Return tt)) as Hr.
  { unfold r, CyclesPlotter.manual_add_multiple, Dict.items.
    rewrite selected_cycles_items by done. by apply manual_loop_exact. }
  split; [done|]. intros cycle_numbers. rewrite Hr. simpl.
  unfold manual_options. rewrite exclude_app, exclude_new, list_filter_filter.
  apply list_filter_iff. intros n. rewrite elem_of_app. tauto.
Qed.
End manual.

Lemma manual_add_appends_witness :
  let r := manual_add_multiple pretty "B" "B" true [3; 1] edited_buffer in
  r = (edited_buffer ++ imap (λ i n, stride_series pretty "B" "B" true
                                       (length edited_buffer + i) n) [3; 1],
       Return tt) ∧
  ∀ cycle_numbers,
    manual_options r.1 "B" cycle_numbers
    = filter (λ n, n ∉ [3; 1]) (manual_options edited_buffer "B" cycle_numbers).
Proof.
  apply (manual_add_appends pretty "B" "B" true [3; 1] edited_buffer).
  apply (bool_decide_unpack _). vm_compute. exact I.
Defined.

Section manual_single.
Variable get_plotly_color : nat → string.

Abbreviation manual_add_single := (manual_add_single get_plotly_color).

(** X14: the "Add" button of the single selection appends one series for
    the selected cycle, with the label of the text input and the colour of
    the position it takes, and the cycle is no longer on offer afterwards;
    when the select box had nothing to offer and returned [None], the
    button raises [ValueError] and the buffer stays as it is. *)
Theorem single_add_outcome name cycle_label cycle_numbers use_base_color
    (cycle_number : option nat) (b : list SingleCycleSeries) :
  (∀ n, cycle_number = Some n → n ∈ cycle_numbers) →
  let r := manual_add_single name cycle_label cycle_numbers use_base_color
             cycle_number b in
  match cycle_number with
  | Some n =>
      r = (b ++ [{| label := cycle_label; experiment_name := name; cycle_id := n;
                    hex_color := get_plotly_color (length b);
                    color_from_base := use_base_color |}],
           Return tt) ∧
      n ∉ manual_options r.1 name cycle_numbers
  | None => r = (b, Raise ValueError)
  end.
Proof.
  intros Hoffer r. destruct cycle_number as [n|]; [|done].
  assert (r = (b ++ [{| label := cycle_label; experiment_name := name; cycle_id := n;
                        hex_color := get_plotly_color (length b);
                        color_from_base := use_base_color |}],
               Return tt)) as Hr.
  { unfold r, CyclesPlotter.manual_add_single. simpl. unfold bind at 1.
    by rewrite manual_body_step by by apply Hoffer. }
  split; [done|]. rewrite Hr. simpl. unfold manual_options.
  intros [Hn _]%list_elem_of_filter. apply Hn.
  rewrite exclude_app. apply elem_of_app. right.
  unfold exclude. rewrite filter_cons_True by done. apply list_elem_of_here.
Qed.
End manual_single.

Lemma single_add_outcome_witness :
  let r := manual_add_single pretty "A" "A [1]" [0; 1] true (Some 1) edited_buffer in
  r = (edited_buffer ++
         [{| label := "A [1]"; experiment_name := "A"; cycle_id := 1;
             hex_color := pretty (length edited_buffer);
             color_from_base := true |}],
       Return tt) ∧
  1 ∉ manual_options r.1 "A" [0; 1].
Proof.
  apply (single_add_outcome pretty "A" "A [1]" [0; 1] true (Some 1) edited_buffer).
  intros n [= <-]. apply list_elem_of_further, list_elem_of_here.
Defined.

(** *** Removal of the series of an experiment *)

(** X15: removing the series of an experiment a second time changes
    nothing more, and the series of two experiments can be removed in
    either order. *)
Theorem removal_commutes (name1 name2 : string) (b : list SingleCycleSeries) :
  let remove name b := (remove_experiment_from_series_buffer name b).1 in
  remove name1 (remove name1 b) = remove name1 b ∧
  remove name1 (remove name2 b) = remove name2 (remove name1 b).
Proof.
  intros remove. unfold remove. rewrite !remove_experiment_eq. simpl.
  split; [apply series_not_of_idemp|].
  unfold series_not_of. rewrite !list_filter_filter.
  apply list_filter_iff. intros series. tauto.
Qed.

End CyclesPlotterProperties.
